(** * Corpus query engine: a shallow embedding of [corpus.cpp]

    The development follows the layout of the source: the query-string
    splitter, the string dictionary, the pairwise set algebra over the three
    set representations, the intersection planner and the query evaluator.

    Conventions.  A C++ [int] is a [Z] (positions and shifts stay far below
    the overflow bound of the source), a [uint32_t] is a [Z] reduced modulo
    [2^32] where the source narrows a [size_t], a [std::string] is a
    [string], a [std::vector] or [std::span] is a [list], and
    [std::map<std::string, uint32_t>] is a [gmap string Z].  A thrown
    exception is the left injection of a sum. *)

From stdpp Require Import base list gmap strings sorting.
From Stdlib Require Import ZArith Ascii String Lia.

Local Open Scope Z_scope.

(** ** Parsing: [split_clauses] *)

Module Parser.

(** The three [std::invalid_argument] exceptions of [split_clauses]. *)
Inductive split_error : Type :=
  | NestedOpen      (* "Nested or misplaced opening bracket '[' detected" *)
  | UnmatchedClose  (* "Mismatched or empty clause: ']' without matching '['" *)
  | MissingClose.   (* "Missing closing bracket for a clause" *)

(** The three locals of [split_clauses]. *)
Record split_state : Type := SplitState {
  clauses : list string;
  sub_clause : string;
  in_clause : bool
}.

Definition split_init : split_state :=
  {| clauses := []; sub_clause := ""; in_clause := false |}.

(** One iteration of [for (char ch : text)]. *)
Definition split_step (st : split_state) (ch : ascii) : split_error + split_state :=
  if Ascii.eqb ch "[" then
    if in_clause st then inl NestedOpen
    else inr {| clauses := clauses st; sub_clause := ""; in_clause := true |}
  else if Ascii.eqb ch "]" then
    if in_clause st then
      inr {| clauses := clauses st ++ [sub_clause st];
             sub_clause := sub_clause st; in_clause := false |}
    else inl UnmatchedClose
  else if in_clause st then
    inr {| clauses := clauses st;
           sub_clause := sub_clause st +:+ String ch "";
           in_clause := true |}
  else inr st.

Fixpoint split_loop (text : string) (st : split_state) : split_error + split_state :=
  match text with
  | EmptyString => inr st
  | String ch rest =>
      match split_step st ch with
      | inl e => inl e
      | inr st' => split_loop rest st'
      end
  end.

Definition split_clauses (text : string) : split_error + list string :=
  match split_loop text split_init with
  | inl e => inl e
  | inr st => if in_clause st then inl MissingClose else inr (clauses st)
  end.

(** Reading of "inside a clause" on the text alone: the nearest bracket to
    the left is an opening one. *)
Fixpoint inside_from (b : bool) (s : string) : bool :=
  match s with
  | EmptyString => b
  | String ch rest =>
      inside_from (if Ascii.eqb ch "[" then true
                   else if Ascii.eqb ch "]" then false else b) rest
  end.

Definition inside (s : string) : bool := inside_from false s.

Fixpoint bracket_free (s : string) : bool :=
  match s with
  | EmptyString => true
  | String ch rest =>
      negb (Ascii.eqb ch "[") && negb (Ascii.eqb ch "]") && bracket_free rest
  end.

Definition raises {E A} (r : E + A) : Prop := ∃ e, r = inl e.

End Parser.

(** ** Data model ([corpus.h]) *)

Record Token : Type := mkToken {
  word : Z;
  c5 : Z;
  lemma : Z;
  pos : Z
}.

Record Literal : Type := mkLiteral {
  attribute : string;
  value : Z;
  is_equality : bool
}.

Definition Clause : Type := list Literal.
Definition Query : Type := list Clause.
Definition Index : Type := list Z.

Record Corpus : Type := mkCorpus {
  tokens : list Token;
  sentences : list Z;
  index2string : list string;
  string2index : gmap string Z;
  word_index : Index;
  c5_index : Index;
  lemma_index : Index;
  pos_index : Index
}.

Record Match : Type := mkMatch {
  sentence : Z;
  mpos : Z;
  len : Z
}.

(** [std::span<const int>] is the list of the elements it views. *)
Record IndexSet : Type := mkIndexSet {
  ielems : list Z;
  shift : Z
}.

Record DenseSet : Type := mkDenseSet {
  first : Z;
  last : Z
}.

Record ExplicitSet : Type := mkExplicitSet {
  elems : list Z
}.

(** [std::variant<DenseSet, IndexSet, ExplicitSet>] *)
Inductive SetVariant : Type :=
  | VDense (d : DenseSet)
  | VIndex (i : IndexSet)
  | VExplicit (e : ExplicitSet).

Record MatchSet : Type := mkMatchSet {
  set : SetVariant;
  complement : bool
}.

(** A default-constructed [Corpus]. *)
Definition empty_corpus : Corpus :=
  {| tokens := []; sentences := []; index2string := []; string2index := ∅;
     word_index := []; c5_index := []; lemma_index := []; pos_index := [] |}.

(** ** The string dictionary: [insert_and_get_index] *)

Module Dictionary.

(** Narrowing of a [size_t] to [uint32_t]. *)
Definition to_uint32 (n : Z) : Z := n mod 2 ^ 32.

(** The corpus is taken by reference, so the updated corpus is returned next
    to the identifier. *)
Definition insert_and_get_index (corpus : Corpus) (str : string) : Corpus * Z :=
  match string2index corpus !! str with
  | Some index => (corpus, index)
  | None =>
      let new_index := Z.of_nat (List.length (index2string corpus)) in
      ({| tokens := tokens corpus;
          sentences := sentences corpus;
          index2string := index2string corpus ++ [str];
          string2index := <[str := to_uint32 new_index]> (string2index corpus);
          word_index := word_index corpus;
          c5_index := c5_index corpus;
          lemma_index := lemma_index corpus;
          pos_index := pos_index corpus |},
       to_uint32 new_index)
  end.

(** [corpus.index2string[id]] for a [uint32_t] identifier. *)
Definition reveal (corpus : Corpus) (id : Z) : option string :=
  index2string corpus !! Z.to_nat id.



(** What every reachable dictionary satisfies, narrowing included: the
    strings of [index2string] are distinct, and [string2index] sends each of
    them to its position, reduced to 32 bits. *)
Definition dict_inv (c : Corpus) : Prop :=
  NoDup (index2string c) ∧
  ∀ s i, string2index c !! s = Some i ↔
         ∃ n : nat, index2string c !! n = Some s ∧ i = to_uint32 (Z.of_nat n).

End Dictionary.

(** ** Binary searches of the standard library

    [std::lower_bound] and [std::upper_bound] as the bisection loop they
    run: [len] elements are left from position [first]; the loop goes right
    when the predicate [go_right] holds at the middle element.  [fuel] bounds
    the iterations; the list length is always enough, since [len] shrinks. *)

Module Search.

Fixpoint bisect (fuel : nat) (go_right : Z → bool) (l : list Z)
    (first len : nat) : nat :=
  match fuel with
  | O => first
  | S fuel' =>
      if (len =? 0)%nat then first
      else
        let half := (len / 2)%nat in
        let middle := (first + half)%nat in
        if go_right (nth middle l 0)
        then bisect fuel' go_right l (S middle) (len - half - 1)
        else bisect fuel' go_right l first half
  end.

(** [std::lower_bound(l.begin(), l.end(), value, comp)], with
    [lt_value x = comp(x, value)]; the result is an offset from [begin]. *)
Definition lower_bound (l : list Z) (lt_value : Z → bool) : nat :=
  bisect (List.length l) lt_value l 0 (List.length l).

(** [std::upper_bound(l.begin(), l.end(), value, comp)], with
    [value_lt x = comp(value, x)]. *)
Definition upper_bound (l : list Z) (value_lt : Z → bool) : nat :=
  bisect (List.length l) (λ x, negb (value_lt x)) l 0 (List.length l).

(** [std::binary_search(l.begin(), l.end(), v)] *)
Definition binary_search (l : list Z) (v : Z) : bool :=
  let i := lower_bound l (λ x, x <? v) in
  (i <? List.length l)%nat && negb (v <? nth i l 0).

End Search.

(** ** Pairwise set algebra *)

Module SetAlgebra.
Import Search.

(** The [std::cout] trace of [binary_diff_two_sets] is not modelled. *)

Definition binary_intersect_two_sets (A B : list Z) (A_shift B_shift : Z) : list Z :=
  List.filter (λ x, binary_search B (x - A_shift + B_shift)) A.

Definition binary_diff_two_sets (A B : list Z) (A_shift B_shift : Z) : list Z :=
  List.filter (λ x, negb (binary_search B (x - A_shift + B_shift))) A.

(** The two cursors [p] and [q] of the merge loops are the suffixes of [A]
    and [B] still to be read. *)
Fixpoint intersect_two_sets (A B : list Z) (A_shift B_shift : Z) : list Z :=
  match A with
  | [] => []
  | a :: A' =>
      (fix scan (B : list Z) : list Z :=
         match B with
         | [] => []
         | b :: B' =>
             if a - A_shift <? b - B_shift then
               intersect_two_sets A' B A_shift B_shift
             else if b - B_shift <? a - A_shift then scan B'
             else (a - A_shift) :: intersect_two_sets A' B' A_shift B_shift
         end) B
  end.

Fixpoint diff_two_sets (A B : list Z) (A_shift B_shift : Z) : list Z :=
  match A with
  | [] => []
  | a :: A' =>
      (fix scan (B : list Z) : list Z :=
         match B with
         | [] => (a - A_shift) :: diff_two_sets A' [] A_shift B_shift
         | b :: B' =>
             if a - A_shift <? b - B_shift then
               (a - A_shift) :: diff_two_sets A' B A_shift B_shift
             else if b - B_shift <? a - A_shift then scan B'
             else diff_two_sets A' B' A_shift B_shift
         end) B
  end.

(** [diff_dense_x]: [n] counts the values [p, p+1, ..] not above [A.last]. *)
Fixpoint diff_dense_loop (n : nat) (p : Z) (B : list Z) (B_shift : Z) : list Z :=
  match n with
  | O => []
  | S n' =>
      (fix scan (B : list Z) : list Z :=
         match B with
         | [] => p :: diff_dense_loop n' (p + 1) [] B_shift
         | b :: B' =>
             if p <? b - B_shift then p :: diff_dense_loop n' (p + 1) B B_shift
             else if p >? b - B_shift then scan B'
             else diff_dense_loop n' (p + 1) B' B_shift
         end) B
  end.

Definition diff_dense_x (A : DenseSet) (B : list Z) (B_shift : Z) : ExplicitSet :=
  mkExplicitSet (diff_dense_loop (Z.to_nat (last A - first A + 1)) (first A) B B_shift).

Definition diff_x_denseset (A : list Z) (B : DenseSet) (A_shift : Z) : ExplicitSet :=
  mkExplicitSet
    (List.filter (λ e, (e <? first B) || (e >? last B))
       (List.map (λ elem, elem - A_shift) A)).

(** [a.size() * 10 <= b.size()] and the like, on [size_t]. *)
Definition size (l : list Z) : Z := Z.of_nat (List.length l).

(** *** Same representation *)

Definition intersection_EE (A B : ExplicitSet) : ExplicitSet :=
  if size (elems A) * 10 <=? size (elems B) then
    mkExplicitSet (binary_intersect_two_sets (elems A) (elems B) 0 0)
  else if size (elems A) >? size (elems B) * 10 then
    mkExplicitSet (binary_intersect_two_sets (elems B) (elems A) 0 0)
  else mkExplicitSet (intersect_two_sets (elems A) (elems B) 0 0).

Definition difference_EE (A B : ExplicitSet) : ExplicitSet :=
  if size (elems A) >=? size (elems B) * 10 then
    mkExplicitSet (binary_diff_two_sets (elems A) (elems B) 0 0)
  else mkExplicitSet (diff_two_sets (elems A) (elems B) 0 0).

Definition intersection_II (A B : IndexSet) : ExplicitSet :=
  if size (ielems A) * 10 <=? size (ielems B) then
    mkExplicitSet (binary_intersect_two_sets (ielems A) (ielems B) (shift A) (shift B))
  else if size (ielems A) >? size (ielems B) * 10 then
    mkExplicitSet (binary_intersect_two_sets (ielems B) (ielems A) (shift B) (shift A))
  else mkExplicitSet (intersect_two_sets (ielems A) (ielems B) (shift A) (shift B)).

Definition difference_II (A B : IndexSet) : ExplicitSet :=
  if size (ielems A) >=? size (ielems B) * 10 then
    mkExplicitSet (binary_diff_two_sets (ielems A) (ielems B) (shift A) (shift B))
  else mkExplicitSet (diff_two_sets (ielems A) (ielems B) (shift A) (shift B)).

Definition intersection_DD (A B : DenseSet) : DenseSet :=
  {| first := Z.max (first A) (first B); last := Z.min (last A) (last B) |}.

Definition difference_DD (A B : DenseSet) : DenseSet :=
  if (last A <=? first B) || (first A >=? last B) then A
  else if first A <? first B then {| first := first A; last := first B |}
  else {| first := 0; last := 0 |}.

(** *** Index and explicit *)

Definition intersection_IE (A : IndexSet) (B : ExplicitSet) : ExplicitSet :=
  if size (ielems A) * 10 <=? size (elems B) then
    mkExplicitSet (binary_intersect_two_sets (ielems A) (elems B) (shift A) 0)
  else if size (ielems A) >? size (elems B) * 10 then
    mkExplicitSet (binary_intersect_two_sets (elems B) (ielems A) 0 (shift A))
  else mkExplicitSet (intersect_two_sets (ielems A) (elems B) (shift A) 0).

Definition intersection_EI (A : ExplicitSet) (B : IndexSet) : ExplicitSet :=
  intersection_IE B A.

Definition difference_IE (A : IndexSet) (B : ExplicitSet) : ExplicitSet :=
  if size (ielems A) >=? size (elems B) * 10 then
    mkExplicitSet (binary_diff_two_sets (ielems A) (elems B) (shift A) 0)
  else mkExplicitSet (diff_two_sets (ielems A) (elems B) (shift A) 0).

Definition difference_EI (A : ExplicitSet) (B : IndexSet) : ExplicitSet :=
  if size (elems A) >=? size (ielems B) * 10 then
    mkExplicitSet (binary_diff_two_sets (elems A) (ielems B) 0 (shift B))
  else mkExplicitSet (diff_two_sets (elems A) (ielems B) 0 (shift B)).

(** *** Dense and explicit *)

(** The loop of [intersection(const DenseSet&, const ExplicitSet&)]: copy
    until the first element above [A.last]. *)
Fixpoint copy_upto (last_A : Z) (B : list Z) : list Z :=
  match B with
  | [] => []
  | i :: B' => if i >? last_A then [] else i :: copy_upto last_A B'
  end.

Definition intersection_DE (A : DenseSet) (B : ExplicitSet) : ExplicitSet :=
  mkExplicitSet (copy_upto (last A) (elems B)).

Definition intersection_ED (A : ExplicitSet) (B : DenseSet) : ExplicitSet :=
  intersection_DE B A.

Definition difference_DE (A : DenseSet) (B : ExplicitSet) : ExplicitSet :=
  diff_dense_x A (elems B) 0.

Definition difference_ED (A : ExplicitSet) (B : DenseSet) : ExplicitSet :=
  diff_x_denseset (elems A) B 0.

(** *** Index and dense *)

Definition intersection_ID (A : IndexSet) (B : DenseSet) : ExplicitSet :=
  mkExplicitSet
    (List.map (λ i, i - shift A)
       (List.filter (λ i, (i - shift A <=? last B) && (i - shift A >=? first B))
          (ielems A))).

Definition intersection_DI (A : DenseSet) (B : IndexSet) : ExplicitSet :=
  intersection_ID B A.

Definition difference_DI (A : DenseSet) (B : IndexSet) : ExplicitSet :=
  diff_dense_x A (ielems B) (shift B).

Definition difference_ID (A : IndexSet) (B : DenseSet) : ExplicitSet :=
  diff_x_denseset (ielems A) B (shift A).

(** *** Overload resolution under [std::visit] *)

Definition intersection_variant (a b : SetVariant) : SetVariant :=
  match a, b with
  | VDense a, VDense b => VDense (intersection_DD a b)
  | VDense a, VIndex b => VExplicit (intersection_DI a b)
  | VDense a, VExplicit b => VExplicit (intersection_DE a b)
  | VIndex a, VDense b => VExplicit (intersection_ID a b)
  | VIndex a, VIndex b => VExplicit (intersection_II a b)
  | VIndex a, VExplicit b => VExplicit (intersection_IE a b)
  | VExplicit a, VDense b => VExplicit (intersection_ED a b)
  | VExplicit a, VIndex b => VExplicit (intersection_EI a b)
  | VExplicit a, VExplicit b => VExplicit (intersection_EE a b)
  end.

Definition difference_variant (a b : SetVariant) : SetVariant :=
  match a, b with
  | VDense a, VDense b => VDense (difference_DD a b)
  | VDense a, VIndex b => VExplicit (difference_DI a b)
  | VDense a, VExplicit b => VExplicit (difference_DE a b)
  | VIndex a, VDense b => VExplicit (difference_ID a b)
  | VIndex a, VIndex b => VExplicit (difference_II a b)
  | VIndex a, VExplicit b => VExplicit (difference_IE a b)
  | VExplicit a, VDense b => VExplicit (difference_ED a b)
  | VExplicit a, VIndex b => VExplicit (difference_EI a b)
  | VExplicit a, VExplicit b => VExplicit (difference_EE a b)
  end.

(** [MatchSet intersection(const MatchSet &A, const MatchSet &B)] *)
Definition intersection (A B : MatchSet) : MatchSet :=
  if complement A && complement B then
    {| set := intersection_variant (set A) (set B); complement := true |}
  else if complement A then
    {| set := difference_variant (set B) (set A); complement := false |}
  else if complement B then
    {| set := difference_variant (set A) (set B); complement := false |}
  else
    {| set := intersection_variant (set A) (set B); complement := false |}.

End SetAlgebra.

(** ** Sorting

    [std::stable_sort] is determined by its contract; it is modelled by
    insertion from the left, each element landing behind the ones it is not
    smaller than.  [std::sort] leaves the order of equivalent elements open,
    and the library's choice differs with the length of the range; the code
    that calls it is therefore read for every sort that keeps the contract
    of [std::sort], see [StdSort]. *)

Module Sorting.

Fixpoint insert_sorted {A : Type} (lt : A → A → bool) (x : A) (l : list A) : list A :=
  match l with
  | [] => [x]
  | y :: l' => if lt x y then x :: l else y :: insert_sorted lt x l'
  end.

Definition stable_sort {A : Type} (lt : A → A → bool) (l : list A) : list A :=
  foldl (λ sorted x, insert_sorted lt x sorted) [] l.

(** [std::sort] with a comparison [key a < key b]: the result is a
    permutation of the range in ascending order of the key.  Nothing more is
    fixed; among elements of equal key every order is allowed. *)
Class StdSort : Type := {
  std_sort : ∀ {A : Type}, (A → A → bool) → list A → list A;
  std_sort_perm : ∀ {A : Type} (lt : A → A → bool) (l : list A),
    std_sort lt l ≡ₚ l;
  std_sort_sorted : ∀ {A : Type} (key : A → Z) (l : list A),
    StronglySorted (λ a b, key a ≤ key b) (std_sort (λ a b, key a <? key b) l)
}.

End Sorting.

(** ** Indexing *)

Module Indexing.
Import Search Sorting.

(** [tokens[a]]; the indices only hold positions of existing tokens. *)
Definition token_at (tokens : list Token) (a : Z) : Token :=
  nth (Z.to_nat a) tokens (mkToken 0 0 0 0).

Definition build_index (tokens : list Token) (attr : Token → Z) : Index :=
  stable_sort (λ a b, attr (token_at tokens a) <? attr (token_at tokens b))
    (seqZ 0 (Z.of_nat (List.length tokens))).

Definition build_indices (corpus : Corpus) : Corpus :=
  {| tokens := tokens corpus;
     sentences := sentences corpus;
     index2string := index2string corpus;
     string2index := string2index corpus;
     word_index := build_index (tokens corpus) word;
     c5_index := build_index (tokens corpus) c5;
     lemma_index := build_index (tokens corpus) lemma;
     pos_index := build_index (tokens corpus) pos |}.

(** [std::invalid_argument("Unknown attribute: " + attribute)] *)
Inductive lookup_error : Type :=
  | UnknownAttribute (attribute : string).

(** The index and member pointer selected by the attribute name. *)
Definition select_attribute (corpus : Corpus) (attribute : string)
    : lookup_error + (Index * (Token → Z)) :=
  if String.eqb attribute "word" then inr (word_index corpus, word)
  else if String.eqb attribute "c5" then inr (c5_index corpus, c5)
  else if String.eqb attribute "lemma" then inr (lemma_index corpus, lemma)
  else if String.eqb attribute "pos" then inr (pos_index corpus, pos)
  else inl (UnknownAttribute attribute).

Definition index_lookup (corpus : Corpus) (attribute : string) (value : Z)
    : lookup_error + IndexSet :=
  match select_attribute corpus attribute with
  | inl e => inl e
  | inr (index, attribute_point) =>
      let first :=
        lower_bound index (λ a, attribute_point (token_at (tokens corpus) a) <? value) in
      let from_first := drop first index in
      let count :=
        upper_bound from_first
          (λ b, value <? attribute_point (token_at (tokens corpus) b)) in
      inr {| ielems := take count from_first; shift := 0 |}
  end.

End Indexing.

(** ** Planner and query evaluator *)

Module Evaluator.
Import Search Sorting SetAlgebra Indexing.

Definition find_set_size (s : MatchSet) : Z :=
  match set s with
  | VDense denseSet => last denseSet - first denseSet + 1
  | VIndex indexSet => size (ielems indexSet)
  | VExplicit explicitSet => size (elems explicitSet)
  end.

(** A value-initialised [MatchSet]: the variant holds its first alternative,
    a zeroed [DenseSet]. *)
Definition default_MatchSet : MatchSet :=
  {| set := VDense {| first := 0; last := 0 |}; complement := false |}.

(** The locals [otherSets], [dense_set] and [dense_found] of
    [intersect_with_plan]. *)
Record plan_state : Type := PlanState {
  otherSets : list MatchSet;
  dense_set : MatchSet;
  dense_found : bool
}.

Definition plan_step (st : plan_state) (s : MatchSet) : plan_state :=
  match set s with
  | VDense _ =>
      {| otherSets := otherSets st;
         dense_set := if dense_found st then intersection (dense_set st) s else s;
         dense_found := true |}
  | _ =>
      {| otherSets := otherSets st ++ [s];
         dense_set := dense_set st;
         dense_found := dense_found st |}
  end.

Definition match_set_literal (corpus : Corpus) (literal : Literal) (shift : Z)
    : lookup_error + MatchSet :=
  match index_lookup corpus (attribute literal) (value literal) with
  | inl e => inl e
  | inr index_set =>
      let index_set := {| ielems := ielems index_set; shift := shift |} in
      if negb (is_equality literal)
      then inr {| set := VIndex index_set; complement := true |}
      else inr {| set := VIndex index_set; complement := false |}
  end.

(** [static_cast<int>(corpus.tokens.size()-1)]: [-1] on an empty corpus. *)
Definition entire_corp (corpus : Corpus) : DenseSet :=
  {| first := 0; last := Z.of_nat (List.length (tokens corpus)) - 1 |}.

(** The loop collecting one set per literal; the first exception leaves it. *)
Fixpoint literal_sets (corpus : Corpus) (clause : Clause) (shift : Z)
    : lookup_error + list MatchSet :=
  match clause with
  | [] => inr []
  | literal :: rest =>
      match match_set_literal corpus literal shift with
      | inl e => inl e
      | inr s =>
          match literal_sets corpus rest shift with
          | inl e => inl e
          | inr sets => inr (s :: sets)
          end
      end
  end.

(** [std::distance(begin, std::upper_bound(begin, end, i)) - 1] *)
Definition sentence_of (corpus : Corpus) (i : Z) : Z :=
  Z.of_nat (upper_bound (sentences corpus) (λ x, i <? x)) - 1.

(** The planner and the functions that call it.  [std::sort] orders
    [otherSets] by [find_set_size]; the order among sets of equal size is
    the library's choice, so these functions are read for every sort that
    keeps the contract of [std::sort]. *)
Section planner.
Context {library : StdSort}.

Definition intersect_with_plan (sets : list MatchSet) : MatchSet :=
  let st := foldl plan_step (PlanState [] default_MatchSet false) sets in
  let sorted :=
    std_sort (λ a b, find_set_size a <? find_set_size b) (otherSets st) in
  match sorted with
  | [] => dense_set st
  | s0 :: others =>
      let returnSet := foldl intersection s0 others in
      if dense_found st then intersection returnSet (dense_set st) else returnSet
  end.

Definition match_set_clause (corpus : Corpus) (clause : Clause) (shift : Z)
    : lookup_error + MatchSet :=
  match clause with
  | [] => inr {| set := VDense (entire_corp corpus); complement := false |}
  | _ =>
      match literal_sets corpus clause shift with
      | inl e => inl e
      | inr sets => inr (intersect_with_plan sets)
      end
  end.

(** The loop collecting one set per clause, [shift++] after each. *)
Fixpoint clause_sets (corpus : Corpus) (query : Query) (shift : Z)
    : lookup_error + list MatchSet :=
  match query with
  | [] => inr []
  | clause :: rest =>
      match match_set_clause corpus clause shift with
      | inl e => inl e
      | inr s =>
          match clause_sets corpus rest (shift + 1) with
          | inl e => inl e
          | inr sets => inr (s :: sets)
          end
      end
  end.

Definition match_set (corpus : Corpus) (query : Query) : lookup_error + MatchSet :=
  match query with
  | [] => inr default_MatchSet
  | _ =>
      match clause_sets corpus query 0 with
      | inl e => inl e
      | inr sets =>
          let s := intersect_with_plan sets in
          if complement s then
            inr (intersection
                   {| set := VDense (entire_corp corpus); complement := false |} s)
          else inr s
      end
  end.

Definition match2 (corpus : Corpus) (query : Query) : lookup_error + list Match :=
  match match_set corpus query with
  | inl e => inl e
  | inr matchSet =>
      match set matchSet with
      | VDense denseSet =>
          inr (List.map (λ i, mkMatch (sentence_of corpus i) i 1)
                 (seqZ (first denseSet) (last denseSet - first denseSet + 1)))
      | VIndex indexSet =>
          inr (List.map (λ i, mkMatch (sentence_of corpus i) i 1) (ielems indexSet))
      | VExplicit explicitSet =>
          inr (List.map
                 (λ i, mkMatch (sentence_of corpus i) i (Z.of_nat (List.length query)))
                 (elems explicitSet))
      end
  end.

End planner.

(** The old matcher [match(const Corpus&, const Query&)], which scans every
    sentence.  [compare_literal_token] throws on an unknown attribute. *)
Definition compare_literal_token (token : Token) (literal : Literal)
    : lookup_error + bool :=
  let attr := attribute literal in
  let val := value literal in
  let is_equal := is_equality literal in
  let cmp (field : Z) := if is_equal then field =? val else negb (field =? val) in
  if String.eqb attr "word" then inr (cmp (word token))
  else if String.eqb attr "c5" then inr (cmp (c5 token))
  else if String.eqb attr "lemma" then inr (cmp (lemma token))
  else if String.eqb attr "pos" then inr (cmp (pos token))
  else inl (UnknownAttribute attr).

(** [compare_token_clause]: every literal is evaluated and the hits are
    counted, so an exception of any literal leaves the function. *)
Fixpoint count_matching (token : Token) (clause : Clause) : lookup_error + nat :=
  match clause with
  | [] => inr O
  | literal :: rest =>
      match compare_literal_token token literal with
      | inl e => inl e
      | inr hit =>
          match count_matching token rest with
          | inl e => inl e
          | inr n => inr (if hit then S n else n)
          end
      end
  end.

Definition compare_token_clause (token : Token) (clause : Clause)
    : lookup_error + bool :=
  match clause with
  | [] => inr true
  | _ =>
      match count_matching token clause with
      | inl e => inl e
      | inr matching_literals => inr (matching_literals =? List.length clause)%nat
      end
  end.

(** The innermost loop over [j]: clause [j] against token [i + j], within
    the sentence that ends before [end_]. *)
Fixpoint all_clauses_match (corpus : Corpus) (i j end_ : Z) (query : Query)
    : lookup_error + bool :=
  match query with
  | [] => inr true
  | clause :: rest =>
      if i + j >=? end_ then inr false
      else
        match compare_token_clause (Indexing.token_at (tokens corpus) (i + j)) clause with
        | inl e => inl e
        | inr false => inr false
        | inr true => all_clauses_match corpus i (j + 1) end_ rest
        end
  end.

(** The loop over the start positions [i] of one sentence. *)
Fixpoint match_sentence (corpus : Corpus) (query : Query) (sentence_index : Z)
    (starts : list Z) (end_ : Z) : lookup_error + list Match :=
  match starts with
  | [] => inr []
  | i :: starts' =>
      match all_clauses_match corpus i 0 end_ query with
      | inl e => inl e
      | inr hit =>
          match match_sentence corpus query sentence_index starts' end_ with
          | inl e => inl e
          | inr matches =>
              inr (if hit
                   then mkMatch sentence_index i (Z.of_nat (List.length query)) :: matches
                   else matches)
          end
      end
  end.

(** The loop over the sentences; [rest] holds the sentence starts from
    [sentence_index] on. *)
Fixpoint match_sentences (corpus : Corpus) (query : Query) (sentence_index : Z)
    (rest : list Z) : lookup_error + list Match :=
  match rest with
  | [] => inr []
  | start :: rest' =>
      let end_ :=
        match rest' with
        | next :: _ => next
        | [] => Z.of_nat (List.length (tokens corpus))
        end in
      match match_sentence corpus query sentence_index
              (seqZ start (end_ - start)) end_ with
      | inl e => inl e
      | inr here =>
          match match_sentences corpus query (sentence_index + 1) rest' with
          | inl e => inl e
          | inr later => inr (here ++ later)
          end
      end
  end.

Definition match_old (corpus : Corpus) (query : Query) : lookup_error + list Match :=
  match_sentences corpus query 0 (sentences corpus).

End Evaluator.

(** ** Single-literal matching: [match_single] *)

Module SingleLiteral.
Import Indexing Evaluator.

Definition match_single (corpus : Corpus) (attr value : string)
    : lookup_error + list Match :=
  match string2index corpus !! value with
  | None => inr []
  | Some value_index =>
      match index_lookup corpus attr value_index with
      | inl e => inl e
      | inr matching_tokens =>
          inr (List.map (λ index, mkMatch (sentence_of corpus index) index 1)
                 (ielems matching_tokens))
      end
  end.

End SingleLiteral.

(** ** Parsing: [parse_clause] and [parse_query] *)

Module QueryParser.
Import Parser.

(** The exceptions of the parser; all are [std::invalid_argument] but
    [NotInCorpus], which is a [std::logic_error]. *)
Inductive parse_error : Type :=
  | SplitError (e : split_error)
  | MissingQuotes (value : string)   (* "The value is missing one or more quotes" *)
  | NotInCorpus (value : string)     (* "Error: ... does not exist in corpus" *)
  | CannotParseLiteral               (* "Cannot parse literal" *)
  | AttributeNotRecognized           (* "attribute not recognized" *)
  | EmptyQuery.                      (* "Error: Empty Query" *)

(** [s.find(pat)]: the offset of the first occurrence. *)
Fixpoint find (pat s : string) : option nat :=
  if String.prefix pat s then Some O
  else
    match s with
    | EmptyString => None
    | String _ rest => option_map S (find pat rest)
    end.

(** One call of [getline(stream, literal, delim)] on the unread part of the
    stream: nothing can be extracted at the end of the stream and the call
    fails; otherwise the characters up to the delimiter are extracted and
    the delimiter is dropped. *)
Fixpoint getline_until (delim : ascii) (stream : string) : string * string :=
  match stream with
  | EmptyString => (EmptyString, EmptyString)
  | String c rest =>
      if Ascii.eqb c delim then (EmptyString, rest)
      else let '(line, unread) := getline_until delim rest in (String c line, unread)
  end.

Definition getline (delim : ascii) (stream : string) : option (string * string) :=
  match stream with
  | EmptyString => None
  | _ => Some (getline_until delim stream)
  end.

(** The double quote character. *)
Definition quote : ascii := "034"%char.

(** The lambda [trim_and_validate_lit]. *)
Definition trim_and_validate_lit (value : string) : parse_error + string :=
  if (2 <? String.length value)%nat
     && bool_decide (String.get 0 value = Some quote)
     && bool_decide (String.get (String.length value - 1) value = Some quote)
  then inr (String.substring 1 (String.length value - 2) value)
  else inl (MissingQuotes value).

(** The lambda [process_literal], on the literal text, the offset [pos] of
    the operator and the operator [op]. *)
Definition process_literal (corpus : Corpus) (literal : string) (pos : nat)
    (op : string) : parse_error + Literal :=
  let is_eq := String.eqb op "=" in
  let attr := String.substring 0 pos literal in
  let value :=
    String.substring (pos + String.length op)
      (String.length literal - (pos + String.length op)) literal in
  match trim_and_validate_lit value with
  | inl e => inl e
  | inr value =>
      match string2index corpus !! value with
      | Some index => inr {| attribute := attr; value := index; is_equality := is_eq |}
      | None => inl (NotInCorpus value)
      end
  end.

(** The body of the [while] loop of [parse_clause] for one literal text. *)
Definition parse_literal (corpus : Corpus) (literal : string) : parse_error + Literal :=
  let processed :=
    match find "!=" literal with
    | Some pos => process_literal corpus literal pos "!="
    | None =>
        match find "=" literal with
        | Some pos => process_literal corpus literal pos "="
        | None => inl CannotParseLiteral
        end
    end in
  match processed with
  | inl e => inl e
  | inr lit =>
      if negb (String.eqb (attribute lit) "word") && negb (String.eqb (attribute lit) "c5")
         && negb (String.eqb (attribute lit) "lemma") && negb (String.eqb (attribute lit) "pos")
      then inl AttributeNotRecognized
      else inr lit
  end.

(** The [while (getline(stream, literal, ' '))] loop; every call takes at
    least one character off the stream, so the length of the text, plus one
    for the failing call, bounds the number of calls. *)
Fixpoint parse_clause_loop (fuel : nat) (corpus : Corpus) (stream : string)
    (literals : list Literal) : parse_error + list Literal :=
  match fuel with
  | O => inr literals
  | S fuel' =>
      match getline " " stream with
      | None => inr literals
      | Some (literal, unread) =>
          match parse_literal corpus literal with
          | inl e => inl e
          | inr lit => parse_clause_loop fuel' corpus unread (literals ++ [lit])
          end
      end
  end.

Definition parse_clause (text : string) (corpus : Corpus) : parse_error + list Literal :=
  parse_clause_loop (S (String.length text)) corpus text [].

(** The loop of [parse_query] over the clause texts. *)
Fixpoint parse_clauses (clauses : list string) (corpus : Corpus)
    : parse_error + Query :=
  match clauses with
  | [] => inr []
  | clause :: rest =>
      match parse_clause clause corpus with
      | inl e => inl e
      | inr current_clause =>
          match parse_clauses rest corpus with
          | inl e => inl e
          | inr query => inr (current_clause :: query)
          end
      end
  end.

Definition parse_query (text : string) (corpus : Corpus) : parse_error + Query :=
  match split_clauses text with
  | inl e => inl (SplitError e)
  | inr clauses =>
      match parse_clauses clauses corpus with
      | inl e => inl e
      | inr [] => inl EmptyQuery
      | inr query => inr query
      end
  end.

End QueryParser.

(** ** Ingestion

    The row loop of [load_corpus] on rows that are already split: [None] is
    an empty line, [Some (word, c5, lemma, pos)] a token line.  Comment lines
    are skipped by the source and are left out here, as are the header line
    and the failure on a malformed line, which belong to the file reader. *)

Module Ingestion.
Import Dictionary Indexing.

Record load_state : Type := LoadState {
  corpus : Corpus;
  in_sentence : bool
}.

Definition push_token (c : Corpus) (t : Token) (new_sentence : bool) : Corpus :=
  {| tokens := tokens c ++ [t];
     sentences :=
       if new_sentence
       then sentences c ++ [Z.of_nat (List.length (tokens c))]
       else sentences c;
     index2string := index2string c;
     string2index := string2index c;
     word_index := word_index c;
     c5_index := c5_index c;
     lemma_index := lemma_index c;
     pos_index := pos_index c |}.

Definition load_row (st : load_state) (row : option (string * string * string * string))
    : load_state :=
  match row with
  | None => {| corpus := corpus st; in_sentence := false |}
  | Some (w, c, l, p) =>
      let '(c1, word_id) := insert_and_get_index (corpus st) w in
      let '(c2, c5_id) := insert_and_get_index c1 c in
      let '(c3, lemma_id) := insert_and_get_index c2 l in
      let '(c4, pos_id) := insert_and_get_index c3 p in
      {| corpus := push_token c4 (mkToken word_id c5_id lemma_id pos_id)
                     (negb (in_sentence st));
         in_sentence := true |}
  end.

(** A file whose last line ends with a newline: [row] is empty after the
    loop and no closing entry is appended to [sentences]. *)
Definition load_rows (rows : list (option (string * string * string * string)))
    : Corpus :=
  build_indices (corpus (foldl load_row (LoadState empty_corpus false) rows)).

End Ingestion.

(** ** Reference notions

    The mathematical sets and conditions that the properties below compare
    the code with. *)

Module Reference.

(** [{ x : x ∈ X ∧ x + d ∈ Y }], listed in the order of [X]. *)
Definition shifted_intersection (X Y : list Z) (d : Z) : list Z :=
  List.filter (λ x, bool_decide (x + d ∈ Y)) X.

(** [{ x : x ∈ X ∧ x + d ∉ Y }], listed in the order of [X]. *)
Definition shifted_difference (X Y : list Z) (d : Z) : list Z :=
  List.filter (λ x, negb (bool_decide (x + d ∈ Y))) X.

(** Membership in the interval [[first, last]] of a [DenseSet]. *)
Definition in_dense (d : DenseSet) (x : Z) : bool :=
  (first d <=? x) && (x <=? last d).

(** The elements of [X] that fall within the interval. *)
Definition within_dense (d : DenseSet) (X : list Z) : list Z :=
  List.filter (in_dense d) X.

(** Membership in the set that a representation stands for: the integers
    of an interval, the elements of a vector, the elements of an index view
    with its shift subtracted. *)
Definition member (v : SetVariant) (x : Z) : bool :=
  match v with
  | VDense d => in_dense d x
  | VIndex i => bool_decide (x + shift i ∈ ielems i)
  | VExplicit e => bool_decide (x ∈ elems e)
  end.

(** The table of [intersection] on two [MatchSet]s, read on the underlying
    sets [a] and [b]: [a ∩ b] when the complement bits agree, [a − b] when
    only [b] is complemented, [b − a] when only [a] is. *)
Definition table_member (ca cb : bool) (a b : SetVariant) (x : Z) : bool :=
  match ca, cb with
  | false, false => member a x && member b x
  | false, true => member a x && negb (member b x)
  | true, false => member b x && negb (member a x)
  | true, true => member a x && member b x
  end.

(** A sorted vector taken as an index view without shift or as a
    materialized set. *)
Definition vector_view (indexed : bool) (X : list Z) : SetVariant :=
  if indexed then VIndex (mkIndexSet X 0) else VExplicit (mkExplicitSet X).

(** A match [(k, p, L)] lies in sentence [k]: [S[k] ≤ p] and
    [p + L - 1 < S[k+1]], or [< T] when [k] is the last sentence. *)
Definition span_in_sentence (corpus : Corpus) (m : Match) : bool :=
  (0 <=? sentence m) &&
  match sentences corpus !! Z.to_nat (sentence m) with
  | None => false
  | Some start =>
      (start <=? mpos m) &&
      (mpos m + len m - 1 <?
         match sentences corpus !! S (Z.to_nat (sentence m)) with
         | Some next => next
         | None => Z.of_nat (List.length (tokens corpus))
         end)
  end.

End Reference.

(** ** A small corpus

    Two sentences of two tokens each, "the cat" and "a dog", read by the
    ingestion loop.  The identifiers are: the 0, AT0 1, DET 2, cat 3, NN1 4,
    NOUN 5, a 6, dog 7. *)

Module Examples.

Definition two_sentences : Corpus :=
  Ingestion.load_rows
    [ Some ("the", "AT0", "the", "DET");
      Some ("cat", "NN1", "cat", "NOUN");
      None;
      Some ("a", "AT0", "a", "DET");
      Some ("dog", "NN1", "dog", "NOUN") ]%string.

(** [[c5="NN1"] []] *)
Definition noun_then_any : Query := [[mkLiteral "c5" 4 true]; []].

(** [[c5!="NN1"] [c5="AT0"]] *)
Definition not_noun_then_article : Query :=
  [[mkLiteral "c5" 4 false]; [mkLiteral "c5" 1 true]].

(** [[c5!="NN1"] [c5="AT0"] []] *)
Definition not_noun_then_article_then_any : Query :=
  [[mkLiteral "c5" 4 false]; [mkLiteral "c5" 1 true]; []].

(** [[] []] *)
Definition any_then_any : Query := [[]; []].

End Examples.

(** ** Invariants of the representations *)

Module Invariants.

(** The order that the merge loops and the probes take for granted: the
    elements of an index view or of a materialized vector are strictly
    ascending.  An interval has no such condition. *)
Definition variant_sorted (v : SetVariant) : Prop :=
  match v with
  | VDense _ => True
  | VIndex i => StronglySorted Z.lt (ielems i)
  | VExplicit e => StronglySorted Z.lt (elems e)
  end.

Definition matchset_sorted (s : MatchSet) : Prop := variant_sorted (set s).

(** The comparison handed to the sorts, and the order they establish. *)
Definition key_lt {A : Type} (key : A → Z) (a b : A) : bool := key a <? key b.

Definition key_sorted {A : Type} (key : A → Z) (l : list A) : Prop :=
  StronglySorted (λ a b, key a ≤ key b) l.

(** The attribute names that [index_lookup] knows. *)
Definition known_attribute (attribute : string) : bool :=
  String.eqb attribute "word" || String.eqb attribute "c5" ||
  String.eqb attribute "lemma" || String.eqb attribute "pos".

(** The set of an empty clause. *)
Definition whole_corpus (corpus : Corpus) : MatchSet :=
  {| set := VDense (Evaluator.entire_corp corpus); complement := false |}.

(** What the parser guarantees of a literal it accepts. *)
Definition literal_ok (corpus : Corpus) (l : Literal) : Prop :=
  known_attribute (attribute l) = true ∧
  ∃ s, string2index corpus !! s = Some (value l).

(** A literal on which [index_lookup] throws. *)
Definition unknown_literal (l : Literal) : Prop :=
  known_attribute (attribute l) = false.

(** What a literal asks of a token, read on the field that its attribute
    name selects. *)
Definition literal_holds (t : Token) (l : Literal) : bool :=
  let field :=
    if String.eqb (attribute l) "word" then word t
    else if String.eqb (attribute l) "c5" then c5 t
    else if String.eqb (attribute l) "lemma" then lemma t
    else pos t in
  if is_equality l then field =? value l else negb (field =? value l).

(** The field of a token that an attribute name selects. *)
Definition attribute_field (attribute : string) (t : Token) : Z :=
  if String.eqb attribute "word" then word t
  else if String.eqb attribute "c5" then c5 t
  else if String.eqb attribute "lemma" then lemma t
  else pos t.

(** The positions of the corpus whose token has the given value in the
    given field, in ascending order. *)
Definition positions_with (tokens : list Token) (field : Token → Z) (v : Z) : list Z :=
  List.filter (λ p, field (Indexing.token_at tokens p) =? v)
    (seqZ 0 (Z.of_nat (List.length tokens))).

(** The elements that a set lists: the vector of an index view or of a
    materialized set. *)
Definition members (s : MatchSet) : list Z :=
  match set s with
  | VDense _ => []
  | VIndex i => ielems i
  | VExplicit e => elems e
  end.

(** A set as an equality literal of the first clause gives it, and as the
    intersections of such sets are: not complemented, without shift,
    strictly ascending. *)
Definition plain (s : MatchSet) : Prop :=
  complement s = false ∧
  match set s with
  | VDense _ => False
  | VIndex i => shift i = 0
  | VExplicit _ => True
  end ∧
  StronglySorted Z.lt (members s).

(** A literal of a clause that only asks for equalities on the four
    attributes. *)
Definition positive_literal (l : Literal) : Prop :=
  known_attribute (attribute l) = true ∧ is_equality l = true.

End Invariants.

(** The corpus of [Examples.two_sentences] before its indices are built. *)

Module Fixtures.

Definition two_sentences_rows : list (option (string * string * string * string)) :=
  [ Some ("the", "AT0", "the", "DET");
    Some ("cat", "NN1", "cat", "NOUN");
    None;
    Some ("a", "AT0", "a", "DET");
    Some ("dog", "NN1", "dog", "NOUN") ]%string.

Definition two_sentences_ingested : Corpus :=
  Ingestion.corpus
    (foldl Ingestion.load_row (Ingestion.LoadState empty_corpus false)
       two_sentences_rows).

(** The same corpus written out, before the indices are built. *)
Definition four_tokens : Corpus :=
  {| tokens := [mkToken 0 1 0 2; mkToken 3 4 3 5; mkToken 6 1 6 2; mkToken 7 4 7 5];
     sentences := [0; 2];
     index2string := ["the"; "AT0"; "DET"; "cat"; "NN1"; "NOUN"; "a"; "dog"]%string;
     string2index :=
       list_to_map
         [("the", 0); ("AT0", 1); ("DET", 2); ("cat", 3);
          ("NN1", 4); ("NOUN", 5); ("a", 6); ("dog", 7)]%string;
     word_index := []; c5_index := []; lemma_index := []; pos_index := [] |}.

End Fixtures.

(** ** Invariants of the ingestion loop *)

Module IngestionInvariants.
Import Dictionary Ingestion.

Definition row : Type := option (string * string * string * string).

(** The token lines among the rows. *)
Definition token_rows (rows : list row) : list (string * string * string * string) :=
  omap id rows.

(** The four identifiers of a token are the dictionary entries of the four
    strings of its line. *)
Definition row_ids (c : Corpus) (t : Token) (r : string * string * string * string)
    : Prop :=
  let '(w, c5_, l, p) := r in
  string2index c !! w = Some (word t) ∧ string2index c !! c5_ = Some (c5 t) ∧
  string2index c !! l = Some (lemma t) ∧ string2index c !! p = Some (pos t).

(** The four strings that the identifiers of a token stand for. *)
Definition decode_token (c : Corpus) (t : Token)
    : option string * option string * option string * option string :=
  (reveal c (word t), reveal c (c5 t), reveal c (lemma t), reveal c (pos t)).

(** What holds after every round of the row loop. *)
Definition load_inv (st : load_state) (done : list row) : Prop :=
  let c := corpus st in
  dict_inv c ∧
  StronglySorted Z.lt (sentences c) ∧
  Forall (λ s, 0 ≤ s < Z.of_nat (List.length (tokens c))) (sentences c) ∧
  (tokens c = [] → in_sentence st = false) ∧
  (tokens c ≠ [] → sentences c !! 0%nat = Some 0) ∧
  Forall2 (row_ids c) (tokens c) (token_rows done).

End IngestionInvariants.

(** ** The written form of a query

    The source has no printer; these are the texts that the properties of
    the parser are stated on. *)

Module Written.
Import QueryParser.

(** A literal to be written: attribute name, polarity, value string and the
    identifier of the value in the dictionary. *)
Record written_literal : Type := WrittenLiteral {
  w_attribute : string;
  w_equality : bool;
  w_value : string;
  w_id : Z
}.

(** [attr="value"] or [attr!="value"] *)
Definition literal_text (l : written_literal) : string :=
  w_attribute l +:+ (if w_equality l then "=" else "!=")
    +:+ String quote (w_value l +:+ String quote "").

Definition literal_of (l : written_literal) : Literal :=
  {| attribute := w_attribute l; value := w_id l; is_equality := w_equality l |}.

(** The literal texts of a clause, one space between two of them. *)
Fixpoint clause_text (texts : list string) : string :=
  match texts with
  | [] => EmptyString
  | [t] => t
  | t :: rest => t +:+ " " +:+ clause_text rest
  end.

(** The conditions under which the written form is read back: the
    attribute is one of the four, the value is a non-empty string of the
    dictionary without a space, and, for an equality, without the operator
    "!=" in it. *)
Definition writable (corpus : Corpus) (l : written_literal) : Prop :=
  Invariants.known_attribute (w_attribute l) = true ∧
  string2index corpus !! w_value l = Some (w_id l) ∧
  w_value l ≠ EmptyString ∧
  find " " (w_value l) = None ∧
  (w_equality l = true → find "!=" (w_value l) = None).

(** The clause texts of a query in brackets, one space between two. *)
Fixpoint query_text (clauses : list string) : string :=
  match clauses with
  | [] => EmptyString
  | [c] => "[" +:+ c +:+ "]"
  | c :: rest => "[" +:+ c +:+ "]" +:+ " " +:+ query_text rest
  end.

(** A clause and a query given by their literals. *)
Definition clause_of (ls : list written_literal) : string :=
  clause_text (literal_text <$> ls).

Definition literals_of (ls : list written_literal) : Clause :=
  literal_of <$> ls.

Definition written_query (cs : list (list written_literal)) : string :=
  query_text (clause_of <$> cs).

(** A literal that can stand in a query: its value has no bracket, too. *)
Definition writable_in_query (corpus : Corpus) (l : written_literal) : Prop :=
  writable corpus l ∧ Parser.bracket_free (w_value l) = true.

End Written.

(** * Properties *)

(** ** The clause splitter *)

Module ParserSpec.
Import Parser.

Lemma split_loop_app pre post st :
  split_loop (pre +:+ post) st =
  match split_loop pre st with
  | inl e => inl e
  | inr st' => split_loop post st'
  end.
Proof.
  revert st. induction pre as [|ch pre IH]; intros st; simpl; [done|].
  destruct (split_step st ch) as [e|st1]; [done|]. apply IH.
Qed.

Lemma inside_from_app b pre post :
  inside_from b (pre +:+ post) = inside_from (inside_from b pre) post.
Proof.
  revert b. induction pre as [|ch pre IH]; intros b; simpl; [done|]. apply IH.
Qed.

(** While no exception is thrown, the flag [in_clause] is the textual
    reading [inside_from]. *)
Lemma split_loop_in_clause text st st' :
  split_loop text st = inr st' →
  in_clause st' = inside_from (in_clause st) text.
Proof.
  revert st. induction text as [|ch text IH]; intros st; simpl.
  - by intros [= ->].
  - unfold split_step.
    destruct (Ascii.eqb ch "["), (Ascii.eqb ch "]"), (in_clause st) eqn:Hin;
      try discriminate; intros H; apply IH in H; simpl in H;
      rewrite ?Hin in H; exact H.
Qed.

(** An exception of the loop is thrown by one step, after an error-free
    prefix. *)
Lemma split_loop_first_error text st e :
  split_loop text st = inl e →
  ∃ pre ch post st',
    text = pre +:+ String ch post ∧
    split_loop pre st = inr st' ∧ split_step st' ch = inl e.
Proof.
  revert st. induction text as [|c text IH]; intros st; simpl; [discriminate|].
  destruct (split_step st c) as [e'|st1] eqn:Hstep.
  - intros [= ->]. by exists EmptyString, c, text, st.
  - intros (pre & ch & post & st' & -> & Hpre & Hch)%IH.
    exists (String c pre), ch, post, st'. simpl. by rewrite Hstep.
Qed.

Lemma split_step_error st ch e :
  split_step st ch = inl e →
  (ch = "["%char ∧ in_clause st = true) ∨ (ch = "]"%char ∧ in_clause st = false).
Proof.
  unfold split_step.
  destruct (Ascii.eqb_spec ch "[") as [->|_].
  - destruct (in_clause st); [by left | discriminate].
  - destruct (Ascii.eqb_spec ch "]") as [->|_].
    + destruct (in_clause st); [discriminate | by right].
    + destruct (in_clause st); discriminate.
Qed.

Lemma split_loop_outside o st :
  bracket_free o = true → in_clause st = false → split_loop o st = inr st.
Proof.
  induction o as [|ch o IH]; simpl; [done|].
  intros [[H1 H2]%andb_prop H3]%andb_prop Hout.
  unfold split_step.
  apply negb_true_iff in H1, H2. rewrite H1, H2, Hout. by apply IH.
Qed.

(** C10.  [split_clauses] throws exactly when the text has a '[' inside a
    clause, a ']' outside of one, or ends inside a clause; and text standing
    outside of the clauses can be removed without changing the outcome, be it
    the list of clauses or the exception. *)
Theorem split_clauses_errors_and_stray_text :
  (∀ text,
     raises (split_clauses text) ↔
       (∃ pre post, text = pre +:+ String "[" post ∧ inside pre = true) ∨
       (∃ pre post, text = pre +:+ String "]" post ∧ inside pre = false) ∨
       inside text = true) ∧
  (∀ pre stray post,
     bracket_free stray = true → inside pre = false →
     split_clauses (pre +:+ stray +:+ post) = split_clauses (pre +:+ post)).
Proof.
  split.
  - intros text. unfold raises, split_clauses. split.
    + intros [e He].
      destruct (split_loop text split_init) as [e'|st] eqn:Hloop.
      * apply split_loop_first_error in Hloop
          as (pre & ch & post & st' & -> & Hpre & Hch).
        apply split_loop_in_clause in Hpre. simpl in Hpre.
        apply split_step_error in Hch as [[-> Hin]|[-> Hin]].
        -- left. exists pre, post. split; [done|]. unfold inside. congruence.
        -- right; left. exists pre, post. split; [done|]. unfold inside. congruence.
      * right; right. apply split_loop_in_clause in Hloop. simpl in Hloop.
        unfold inside. destruct (in_clause st); [congruence | discriminate].
    + intros [(pre & post & -> & Hin)|[(pre & post & -> & Hin)|Hin]].
      * rewrite split_loop_app.
        destruct (split_loop pre split_init) as [e|st] eqn:Hpre; [by eexists|].
        apply split_loop_in_clause in Hpre. simpl in Hpre.
        unfold inside in Hin. rewrite Hin in Hpre.
        simpl. unfold split_step. simpl. rewrite Hpre. by eexists.
      * rewrite split_loop_app.
        destruct (split_loop pre split_init) as [e|st] eqn:Hpre; [by eexists|].
        apply split_loop_in_clause in Hpre. simpl in Hpre.
        unfold inside in Hin. rewrite Hin in Hpre.
        simpl. unfold split_step. simpl. rewrite Hpre. by eexists.
      * destruct (split_loop text split_init) as [e|st] eqn:Hloop; [by eexists|].
        apply split_loop_in_clause in Hloop. simpl in Hloop.
        unfold inside in Hin. rewrite Hin in Hloop. rewrite Hloop. by eexists.
  - intros pre stray post Hfree Hout. unfold split_clauses.
    rewrite !split_loop_app.
    destruct (split_loop pre split_init) as [e|st] eqn:Hpre; [done|].
    apply split_loop_in_clause in Hpre. simpl in Hpre.
    unfold inside in Hout. rewrite Hout in Hpre.
    by rewrite split_loop_app, (split_loop_outside stray st Hfree Hpre).
Qed.

(** The statement at a query with text before, between and after its
    clauses. *)
Lemma split_clauses_errors_and_stray_text_witness :
  bracket_free "and" = true ∧ inside "[a]" = false ∧
  split_clauses ("[a]" +:+ "and" +:+ "[b]") = split_clauses ("[a]" +:+ "[b]").
Proof.
  split; [reflexivity|]. split; [reflexivity|].
  apply (proj2 split_clauses_errors_and_stray_text "[a]" "and" "[b]");
    reflexivity.
Defined.

End ParserSpec.

(** ** The dictionary *)

Module DictionarySpec.
Import Dictionary.

Lemma dict_inv_empty : dict_inv empty_corpus.
Proof.
  split; [constructor|]. intros s i. simpl. rewrite lookup_empty.
  split; [done|]. intros (n & Hn & _). by rewrite lookup_nil in Hn.
Qed.

Lemma dict_inv_None c s :
  dict_inv c → string2index c !! s = None ↔ s ∉ index2string c.
Proof.
  intros [_ H]. split.
  - intros Hnone (n & Hn)%list_elem_of_lookup.
    assert (string2index c !! s = Some (to_uint32 (Z.of_nat n))) as Hs
      by (apply H; eauto).
    congruence.
  - intros Hnot. destruct (string2index c !! s) eqn:E; [|done].
    apply H in E as (n & Hn & _). exfalso. apply Hnot.
    apply list_elem_of_lookup. eauto.
Qed.

Lemma insert_inv c s : dict_inv c → dict_inv (insert_and_get_index c s).1.
Proof.
  intros Hinv. unfold insert_and_get_index.
  destruct (string2index c !! s) eqn:E; [done|]. simpl.
  pose proof (proj1 (dict_inv_None c s Hinv) E) as Hnot.
  destruct Hinv as [Hnd H]. split; simpl.
  - apply NoDup_app. split; [done|]. split; [|apply NoDup_singleton].
    intros x Hx ->%list_elem_of_singleton. done.
  - intros s' i. destruct (decide (s = s')) as [<-|Hne].
    + rewrite lookup_insert_eq. split.
      * intros [= <-]. exists (List.length (index2string c)). split; [|done].
        rewrite lookup_app_r by lia. by rewrite Nat.sub_diag.
      * intros (n & Hn & ->). f_equal. f_equal. f_equal.
        apply lookup_app_Some in Hn as [Hn|[Hge Hn]].
        -- exfalso. apply Hnot. apply list_elem_of_lookup. eauto.
        -- apply list_lookup_singleton_Some in Hn as [? _]. lia.
    + rewrite lookup_insert_ne by done. rewrite H.
      split; intros (n & Hn & ->); exists n; (split; [|done]).
      * by apply lookup_app_l_Some.
      * apply lookup_app_Some in Hn as [Hn|[Hge Hn]]; [done|].
        apply list_lookup_singleton_Some in Hn as [_ ?]. congruence.
Qed.

(** The call records its string under the identifier it returns. *)
Lemma insert_lookup c s :
  string2index (insert_and_get_index c s).1 !! s = Some (insert_and_get_index c s).2.
Proof.
  unfold insert_and_get_index. destruct (string2index c !! s) eqn:E; simpl; [done|].
  apply lookup_insert_eq.
Qed.















End DictionarySpec.

(** ** Binary search on sorted lists *)

Module SearchSpec.
Import Search.

(** The bisection returns the partition point of a list whose elements
    satisfying [p] all stand before the others. *)
Lemma bisect_partition_point (p : Z → bool) (l : list Z) (fuel first len : nat) :
  (len ≤ fuel)%nat → (first + len ≤ List.length l)%nat →
  (∀ i j, (i ≤ j < List.length l)%nat → p (nth j l 0) = true → p (nth i l 0) = true) →
  (∀ i, (i < first)%nat → p (nth i l 0) = true) →
  (∀ i, (first + len ≤ i < List.length l)%nat → p (nth i l 0) = false) →
  let r := bisect fuel p l first len in
  (first ≤ r ≤ first + len)%nat ∧
  (∀ i, (i < r)%nat → p (nth i l 0) = true) ∧
  (∀ i, (r ≤ i < List.length l)%nat → p (nth i l 0) = false).
Proof.
  intros Hfuel Hrange Hmono. revert first len Hfuel Hrange.
  induction fuel as [|fuel IH]; intros first len Hfuel Hrange Hlow Hhigh;
    cbn [bisect].
  - assert (len = 0)%nat as -> by lia.
    split; [lia|]. split; [done|]. intros i Hi. apply Hhigh. lia.
  - destruct (Nat.eqb_spec len 0) as [->|Hlen].
    + split; [lia|]. split; [done|]. intros i Hi. apply Hhigh. lia.
    + pose proof (Nat.div_lt len 2 ltac:(lia) ltac:(lia)) as Hhalf.
      destruct (p (nth (first + len / 2) l 0)) eqn:Hmid.
      * destruct (IH (S (first + len / 2)) (len - len / 2 - 1)%nat)
          as (Hr & Ht & Hf); [lia|lia| | |].
        -- intros i Hi. apply (Hmono i (first + len / 2)%nat); [lia|done].
        -- intros i Hi. apply Hhigh. lia.
        -- split; [lia|]. by split.
      * destruct (IH first (len / 2)%nat) as (Hr & Ht & Hf); [lia|lia|done| |].
        -- intros i Hi. destruct (p (nth i l 0)) eqn:Hpi; [|done].
           rewrite (Hmono (first + len / 2)%nat i) in Hmid; [done|lia|done].
        -- split; [lia|]. by split.
Qed.

Lemma sorted_nth_le (l : list Z) (i j : nat) :
  StronglySorted Z.le l → (i ≤ j < List.length l)%nat → nth i l 0 ≤ nth j l 0.
Proof.
  intros Hs. revert i j. induction Hs as [|x l Hs IH Hall]; intros i j Hij.
  - simpl in Hij. lia.
  - destruct i as [|i], j as [|j]; simpl in *; try lia.
    + rewrite Forall_forall in Hall. apply Hall. apply list_elem_of_In, nth_In. lia.
    + apply IH. lia.
Qed.

(** [std::binary_search] decides membership in a sorted range. *)
Lemma binary_search_sorted (l : list Z) (v : Z) :
  StronglySorted Z.le l → binary_search l v = bool_decide (v ∈ l).
Proof.
  intros Hs. unfold binary_search, lower_bound.
  destruct (bisect_partition_point (λ x, x <? v) l (List.length l) 0 (List.length l))
    as (Hr & Ht & Hf); [lia|lia| |lia|lia|].
  { intros i j Hij Hj. apply Z.ltb_lt in Hj. apply Z.ltb_lt.
    pose proof (sorted_nth_le l i j Hs Hij). lia. }
  set (r := bisect _ _ _ _ _) in *.
  destruct (bool_decide_reflect (v ∈ l)) as [Hin|Hnot].
  - apply list_elem_of_In, (In_nth _ _ 0) in Hin as (j & Hj & Hv).
    assert (r ≤ j)%nat as Hrj.
    { destruct (Nat.le_gt_cases r j) as [|Hlt]; [done|].
      apply Ht, Z.ltb_lt in Hlt. lia. }
    pose proof (Hf r ltac:(lia)) as Hge. apply Z.ltb_ge in Hge.
    pose proof (sorted_nth_le l r j Hs ltac:(lia)) as Hle.
    apply andb_true_iff. split; [apply Nat.ltb_lt; lia|].
    apply negb_true_iff, Z.ltb_ge. lia.
  - apply not_true_iff_false. intros [Hlt Hle]%andb_true_iff.
    apply Nat.ltb_lt in Hlt. apply negb_true_iff, Z.ltb_ge in Hle.
    pose proof (Hf r ltac:(lia)) as Hge. apply Z.ltb_ge in Hge.
    apply Hnot. replace v with (nth r l 0) by lia.
    apply list_elem_of_In, nth_In. lia.
Qed.

End SearchSpec.

(** ** The planner under the contract of [std::sort] *)

Module PlannerSpec.
Import Sorting SetAlgebra Evaluator.

(** What the contract of [std::sort] fixes on the short ranges: nothing can
    move in a range of at most one element, and a range of two comes back in
    one of its two orders. *)
Lemma std_sort_nil {library : StdSort} {A : Type} (lt : A → A → bool) :
  std_sort lt [] = [].
Proof. apply Permutation_nil_r, std_sort_perm. Qed.

Lemma std_sort_singleton {library : StdSort} {A : Type} (lt : A → A → bool) (x : A) :
  std_sort lt [x] = [x].
Proof. apply Permutation_singleton_r, std_sort_perm. Qed.

Lemma std_sort_pair {library : StdSort} {A : Type} (lt : A → A → bool) (a b : A) :
  std_sort lt [a; b] = [a; b] ∨ std_sort lt [a; b] = [b; a].
Proof.
  pose proof (std_sort_perm lt [a; b]) as H.
  pose proof (Permutation_length H) as Hlen.
  destruct (std_sort lt [a; b]) as [|x [|y [|z l]]]; try discriminate.
  assert (x ∈ [a; b]) as Hx by (rewrite <- H; left).
  assert (a ∈ [x; y]) as Ha by (rewrite H; left).
  assert (b ∈ [x; y]) as Hb by (rewrite H; right; left).
  rewrite !elem_of_cons, elem_of_nil in Hx, Ha, Hb.
  destruct Hx as [->|[->|[]]].
  - apply Permutation_cons_inv in H. apply Permutation_singleton_r in H. left. congruence.
  - right. f_equal. destruct Ha as [->|[->|[]]]; [|done].
    apply Permutation_cons_inv in H. apply Permutation_singleton_r in H. congruence.
Qed.

(** The planner on at most two sets that are not intervals: the sort has no
    say, provided that the two sets of a pair can be intersected in either
    order. *)
Lemma intersect_with_plan_none {library : StdSort} (sets : list MatchSet) :
  let st := foldl plan_step (PlanState [] default_MatchSet false) sets in
  otherSets st = [] → intersect_with_plan sets = dense_set st.
Proof.
  intros st H. unfold intersect_with_plan. fold st. by rewrite H, std_sort_nil.
Qed.

Lemma intersect_with_plan_one {library : StdSort} (sets : list MatchSet) (s : MatchSet) :
  let st := foldl plan_step (PlanState [] default_MatchSet false) sets in
  otherSets st = [s] →
  intersect_with_plan sets =
  if dense_found st then intersection s (dense_set st) else s.
Proof.
  intros st H. unfold intersect_with_plan. fold st.
  by rewrite H, std_sort_singleton.
Qed.

Lemma intersect_with_plan_two {library : StdSort} (sets : list MatchSet)
    (a b : MatchSet) :
  let st := foldl plan_step (PlanState [] default_MatchSet false) sets in
  otherSets st = [a; b] → intersection a b = intersection b a →
  intersect_with_plan sets =
  if dense_found st then intersection (intersection a b) (dense_set st)
  else intersection a b.
Proof.
  intros st H Hcomm. unfold intersect_with_plan. fold st. rewrite H.
  destruct (std_sort_pair (λ a b, find_set_size a <? find_set_size b) a b)
    as [-> | ->]; simpl; by rewrite ?Hcomm.
Qed.

(** The planner hands a single set back unchanged. *)
Lemma intersect_with_plan_singleton {library : StdSort} (s : MatchSet) :
  intersect_with_plan [s] = s.
Proof.
  destruct s as [[d|i|e] c].
  - by rewrite intersect_with_plan_none.
  - by rewrite (intersect_with_plan_one _ (mkMatchSet (VIndex i) c)).
  - by rewrite (intersect_with_plan_one _ (mkMatchSet (VExplicit e) c)).
Qed.

Lemma match_set_clause_single {library : StdSort} corpus (l : Literal) (shift : Z) :
  match_set_clause corpus [l] shift = match_set_literal corpus l shift.
Proof.
  unfold match_set_clause. cbn [literal_sets].
  destruct (match_set_literal corpus l shift) as [e|s]; [done|].
  by rewrite intersect_with_plan_singleton.
Qed.

End PlannerSpec.

(** ** The pairwise set algebra *)

Module SetAlgebraSpec.
Import Search SearchSpec SetAlgebra Reference.

Lemma filter_none (f : Z → bool) (l : list Z) :
  (∀ x, x ∈ l → f x = false) → List.filter f l = [].
Proof.
  induction l as [|x l IH]; intros H; simpl; [done|].
  rewrite (H x) by (apply elem_of_cons; auto). apply IH.
  intros y Hy. apply H, elem_of_cons. auto.
Qed.

Lemma filter_agree (f g : Z → bool) (l : list Z) :
  (∀ x, x ∈ l → f x = g x) → List.filter f l = List.filter g l.
Proof.
  intros H. apply filter_ext_in. intros x Hx. by apply H, list_elem_of_In.
Qed.

(** One round of the merge loops, at the heads of the unread suffixes. *)
Lemma intersect_two_sets_step a A b B sa sb :
  intersect_two_sets (a :: A) (b :: B) sa sb =
  if a - sa <? b - sb then intersect_two_sets A (b :: B) sa sb
  else if b - sb <? a - sa then intersect_two_sets (a :: A) B sa sb
  else (a - sa) :: intersect_two_sets A B sa sb.
Proof. reflexivity. Qed.

Lemma diff_two_sets_step a A b B sa sb :
  diff_two_sets (a :: A) (b :: B) sa sb =
  if a - sa <? b - sb then (a - sa) :: diff_two_sets A (b :: B) sa sb
  else if b - sb <? a - sa then diff_two_sets (a :: A) B sa sb
  else diff_two_sets A B sa sb.
Proof. reflexivity. Qed.

Lemma diff_two_sets_nil A sa sb :
  diff_two_sets A [] sa sb = List.map (λ x, x - sa) A.
Proof. induction A as [|a A IH]; simpl; [done|]. by rewrite IH. Qed.

(** Sortedness of a given list, by running its decision procedure. *)
Local Ltac sorted_by_decision :=
  apply (bool_decide_unpack _); vm_compute; exact I.

Local Ltac head_facts :=
  repeat match goal with
  | H : Forall _ (_ :: _) |- _ => apply Forall_cons in H as [? ?]
  | H : Forall _ ?l, H' : ?x ∈ ?l |- _ =>
      let F := fresh in
      pose proof (proj1 (Forall_forall _ _) H x H') as F; simpl in F;
      clear H'
  end.

(** On a strictly ascending [A] and an ascending [B], the merge emits the
    elements of [A] whose shifted value occurs in [B], each with the shift
    of [A] taken off. *)
Lemma intersect_two_sets_sorted A B sa sb :
  StronglySorted Z.lt A → StronglySorted Z.le B →
  intersect_two_sets A B sa sb =
  List.map (λ x, x - sa) (List.filter (λ x, bool_decide (x - sa + sb ∈ B)) A).
Proof.
  intros HA. revert B. induction HA as [|a A HA IHA Hall]; intros B HB; [done|].
  induction HB as [|b B HB IHB HallB].
  - rewrite filter_none; [by destruct A|].
    intros x _. apply bool_decide_eq_false, not_elem_of_nil.
  - rewrite intersect_two_sets_step.
    destruct (Z.ltb_spec (a - sa) (b - sb)) as [Hlt|Hge].
    + rewrite IHA by by constructor. cbn [List.filter].
      rewrite bool_decide_false; [done|].
      intros [?|Hin]%elem_of_cons; [lia|]. head_facts. lia.
    + destruct (Z.ltb_spec (b - sb) (a - sa)) as [Hlt|Hge'].
      * rewrite IHB. f_equal. apply filter_agree. intros x Hx.
        apply bool_decide_ext. rewrite elem_of_cons.
        apply elem_of_cons in Hx as [->|Hx]; [|head_facts]; split; auto;
          intros [?|?]; auto; lia.
      * cbn [List.filter]. rewrite bool_decide_true
          by (apply elem_of_cons; left; lia).
        cbn [List.map]. f_equal. rewrite IHA by done. f_equal.
        apply filter_agree. intros x Hx. apply bool_decide_ext.
        rewrite elem_of_cons. head_facts. split; auto. intros [?|?]; auto; lia.
Qed.

Lemma diff_two_sets_sorted A B sa sb :
  StronglySorted Z.lt A → StronglySorted Z.le B →
  diff_two_sets A B sa sb =
  List.map (λ x, x - sa)
    (List.filter (λ x, negb (bool_decide (x - sa + sb ∈ B))) A).
Proof.
  intros HA. revert B. induction HA as [|a A HA IHA Hall]; intros B HB; [done|].
  induction HB as [|b B HB IHB HallB].
  - rewrite diff_two_sets_nil. f_equal. symmetry.
    rewrite (filter_agree _ (λ _, true)); [by rewrite filter_true|].
    intros x _. apply negb_true_iff, bool_decide_eq_false, not_elem_of_nil.
  - rewrite diff_two_sets_step.
    destruct (Z.ltb_spec (a - sa) (b - sb)) as [Hlt|Hge].
    + rewrite IHA by by constructor. cbn [List.filter].
      rewrite bool_decide_false; [done|].
      intros [?|Hin]%elem_of_cons; [lia|]. head_facts. lia.
    + destruct (Z.ltb_spec (b - sb) (a - sa)) as [Hlt|Hge'].
      * rewrite IHB. f_equal. apply filter_agree. intros x Hx. f_equal.
        apply bool_decide_ext. rewrite elem_of_cons.
        apply elem_of_cons in Hx as [->|Hx]; [|head_facts]; split; auto;
          intros [?|?]; auto; lia.
      * cbn [List.filter]. rewrite bool_decide_true
          by (apply elem_of_cons; left; lia).
        cbn [negb]. rewrite IHA by done. f_equal.
        apply filter_agree. intros x Hx. f_equal. apply bool_decide_ext.
        rewrite elem_of_cons. head_facts. split; auto. intros [?|?]; auto; lia.
Qed.

(** On an ascending [B], the probes keep or drop the elements of [A] by
    membership of their shifted value in [B]; the kept elements are stored
    as they stand in [A]. *)
Lemma binary_intersect_two_sets_sorted A B sa sb :
  StronglySorted Z.le B →
  binary_intersect_two_sets A B sa sb =
  List.filter (λ x, bool_decide (x - sa + sb ∈ B)) A.
Proof.
  intros HB. unfold binary_intersect_two_sets. apply filter_agree.
  intros x _. by apply binary_search_sorted.
Qed.

Lemma binary_diff_two_sets_sorted A B sa sb :
  StronglySorted Z.le B →
  binary_diff_two_sets A B sa sb =
  List.filter (λ x, negb (bool_decide (x - sa + sb ∈ B))) A.
Proof.
  intros HB. unfold binary_diff_two_sets. apply filter_agree.
  intros x _. f_equal. by apply binary_search_sorted.
Qed.

(** What relates the two algorithms on sorted inputs: the merge results are
    the probe results with the shift of [A] taken off every element. *)
Lemma merge_is_shifted_probe A B sa sb :
  StronglySorted Z.lt A → StronglySorted Z.le B →
  intersect_two_sets A B sa sb =
    List.map (λ x, x - sa) (binary_intersect_two_sets A B sa sb) ∧
  diff_two_sets A B sa sb =
    List.map (λ x, x - sa) (binary_diff_two_sets A B sa sb).
Proof.
  intros HA HB.
  rewrite intersect_two_sets_sorted, diff_two_sets_sorted by done.
  by rewrite binary_intersect_two_sets_sorted, binary_diff_two_sets_sorted.
Qed.

Lemma map_sub_0 (l : list Z) : List.map (λ x, x - 0) l = l.
Proof.
  induction l as [|x l IH]; simpl; [done|]. rewrite IH. f_equal. lia.
Qed.

(** With no shift on [A] the two algorithms agree. *)
Lemma merge_is_probe_unshifted A B sb :
  StronglySorted Z.lt A → StronglySorted Z.le B →
  intersect_two_sets A B 0 sb = binary_intersect_two_sets A B 0 sb ∧
  diff_two_sets A B 0 sb = binary_diff_two_sets A B 0 sb.
Proof.
  intros HA HB. destruct (merge_is_shifted_probe A B 0 sb HA HB) as [-> ->].
  by rewrite !map_sub_0.
Qed.

Lemma StronglySorted_lt_le (l : list Z) :
  StronglySorted Z.lt l → StronglySorted Z.le l.
Proof.
  induction 1 as [|x l Hs IH Hall]; constructor; [done|].
  eapply Forall_impl; [exact Hall|]. intros y Hy. simpl in *. lia.
Qed.

(** C5.  The merge and the probe algorithms do not return identical results
    once the left operand carries a shift: on the sorted sequences [1; 3]
    and [1; 3], both shifted by one, the merge returns the common elements
    as [0; 2] and the probe as [1; 3]; the differences against [3] are [0]
    and [1]. *)
Theorem merge_and_probe_differ_under_left_shift :
  StronglySorted Z.lt [1; 3] ∧ StronglySorted Z.lt [3] ∧
  intersect_two_sets [1; 3] [1; 3] 1 1 = [0; 2] ∧
  binary_intersect_two_sets [1; 3] [1; 3] 1 1 = [1; 3] ∧
  diff_two_sets [1; 3] [3] 1 1 = [0] ∧
  binary_diff_two_sets [1; 3] [3] 1 1 = [1].
Proof.
  split; [sorted_by_decision|]. split; [sorted_by_decision|].
  repeat split; reflexivity.
Qed.

(** Where the size rule of [intersection(const IndexSet&, const IndexSet&)]
    picks the probe driven by the left operand, or the merge, the result is
    the shifted intersection in the coordinates of the left operand. *)
Lemma intersection_II_left_driver_or_merge X Y d :
  StronglySorted Z.lt X → StronglySorted Z.lt Y →
  size X <= size Y * 10 →
  elems (intersection_II (mkIndexSet X 0) (mkIndexSet Y d)) =
  shifted_intersection X Y d.
Proof.
  intros HX HY%StronglySorted_lt_le Hsize. unfold intersection_II; simpl.
  assert (List.filter (λ x, bool_decide (x - 0 + d ∈ Y)) X
          = shifted_intersection X Y d) as Hspec.
  { apply filter_agree. intros x _. f_equal. by replace (x - 0 + d) with (x + d) by lia. }
  destruct (Z.leb_spec (size X * 10) (size Y)); simpl.
  - by rewrite binary_intersect_two_sets_sorted.
  - destruct (Z.gtb_spec (size X) (size Y * 10)); [lia|]. simpl.
    rewrite intersect_two_sets_sorted by done. by rewrite map_sub_0.
Qed.

(** Where it picks the probe driven by the right operand, the result lists
    elements of the right operand as they stand in its view. *)
Lemma intersection_II_right_driver X Y d :
  StronglySorted Z.lt X → size X > size Y * 10 →
  elems (intersection_II (mkIndexSet X 0) (mkIndexSet Y d)) =
  List.filter (λ y, bool_decide (y - d ∈ X)) Y.
Proof.
  intros HX%StronglySorted_lt_le Hsize. unfold intersection_II; simpl.
  destruct (Z.leb_spec (size X * 10) (size Y)); simpl.
  - unfold size in *. lia.
  - destruct (Z.gtb_spec (size X) (size Y * 10)); [|lia]. simpl.
    rewrite binary_intersect_two_sets_sorted by done.
    apply filter_agree. intros y _. f_equal. by replace (y - d + 0) with (y - d) by lia.
Qed.

(** C4.  With [X = 0..10] at shift 0 on the left and [Y = [6]] at shift 1
    on the right, the size rule picks the probe driven by [Y], and
    [intersection] returns [6], the element of [Y], where the set
    [{ x : x ∈ X ∧ x + 1 ∈ Y }] is [5]. *)
Theorem intersection_II_right_driver_misses_shift :
  StronglySorted Z.lt (seqZ 0 11) ∧ StronglySorted Z.lt [6] ∧
  intersection_II (mkIndexSet (seqZ 0 11) 0) (mkIndexSet [6] 1)
    = mkExplicitSet [6] ∧
  shifted_intersection (seqZ 0 11) [6] 1 = [5].
Proof.
  split; [sorted_by_decision|]. split; [sorted_by_decision|].
  split; reflexivity.
Qed.

(** C6.  [intersection] on two [MatchSet]s selects the operation by the
    complement bits as the table says, but the set it returns is not always
    the one of the table.  With the interval [[3, 5]] and the vector
    [1; 4; 7], rows 0/0 and 1/1 return [1; 4], where 1 is not in the
    interval; with the intervals [[0, 5]] and [[3, 9]], rows 0/1 and 1/0
    return [[0, 3]], where 3 is in the set taken away. *)
Theorem intersection_table_fails_in_overloads :
  let interval := VDense (mkDenseSet 3 5) in
  let vector := VExplicit (mkExplicitSet [1; 4; 7]) in
  let a := VDense (mkDenseSet 0 5) in
  let b := VDense (mkDenseSet 3 9) in
  StronglySorted Z.lt [1; 4; 7] ∧
  intersection (mkMatchSet interval false) (mkMatchSet vector false)
    = mkMatchSet (VExplicit (mkExplicitSet [1; 4])) false ∧
  intersection (mkMatchSet interval true) (mkMatchSet vector true)
    = mkMatchSet (VExplicit (mkExplicitSet [1; 4])) true ∧
  member (VExplicit (mkExplicitSet [1; 4])) 1 = true ∧
  table_member false false interval vector 1 = false ∧
  table_member true true interval vector 1 = false ∧
  intersection (mkMatchSet a false) (mkMatchSet b true)
    = mkMatchSet (VDense (mkDenseSet 0 3)) false ∧
  intersection (mkMatchSet b true) (mkMatchSet a false)
    = mkMatchSet (VDense (mkDenseSet 0 3)) false ∧
  member (VDense (mkDenseSet 0 3)) 3 = true ∧
  table_member false true a b 3 = false ∧
  table_member true false b a 3 = false.
Proof.
  cbv zeta. split; [sorted_by_decision|]. repeat split; vm_compute; reflexivity.
Qed.

(** The table read off two arbitrary [MatchSet]s. *)
Lemma intersection_by_bits (A B : MatchSet) :
  intersection A B =
  match complement A, complement B with
  | false, false => mkMatchSet (intersection_variant (set A) (set B)) false
  | false, true => mkMatchSet (difference_variant (set A) (set B)) false
  | true, false => mkMatchSet (difference_variant (set B) (set A)) false
  | true, true => mkMatchSet (intersection_variant (set A) (set B)) true
  end.
Proof. unfold intersection. by destruct (complement A), (complement B). Qed.

(** Of the four cases of [A − B] on intervals, the disjoint one is the one
    that [difference] gets right. *)
Lemma difference_DD_disjoint (A B : DenseSet) :
  last A < first B ∨ last B < first A → difference_DD A B = A.
Proof.
  intros H. unfold difference_DD.
  destruct (Z.leb_spec (last A) (first B)); simpl; [done|].
  destruct (Z.geb_spec (first A) (last B)); [done|lia].
Qed.

(** C7.  [difference] on two intervals misses three of the four cases:
    with [B = [3, 9]] covering the end of [A = [0, 5]] it returns [[0, 3]],
    keeping 3, which lies in [B]; with [B = [0, 5]] covering the start of
    [A = [3, 9]] it returns [[0, 0]] for [[6, 9]]; with [B = [3, 5]] inside
    [A = [0, 9]] it returns the interval [[0, 3]] for the two intervals
    [[0, 2]] and [[6, 9]]. *)
Theorem difference_DD_overlapping_cases :
  (difference_DD (mkDenseSet 0 5) (mkDenseSet 3 9) = mkDenseSet 0 3 ∧
   in_dense (mkDenseSet 3 9) 3 = true) ∧
  (difference_DD (mkDenseSet 3 9) (mkDenseSet 0 5) = mkDenseSet 0 0 ∧
   in_dense (mkDenseSet 3 9) 0 = false) ∧
  (difference_DD (mkDenseSet 0 9) (mkDenseSet 3 5) = mkDenseSet 0 3 ∧
   in_dense (mkDenseSet 3 5) 3 = true ∧
   in_dense (mkDenseSet 0 3) 6 = false).
Proof. repeat split. Qed.

(** The index-view overload selects by both bounds. *)
Lemma intersection_ID_within (A : IndexSet) (B : DenseSet) :
  elems (intersection_ID A B) =
  within_dense B (List.map (λ i, i - shift A) (ielems A)).
Proof.
  unfold intersection_ID, within_dense; simpl.
  induction (ielems A) as [|i l IH]; simpl; [done|].
  unfold in_dense at 1. rewrite Z.geb_leb, (andb_comm (_ <=? last B)).
  destruct (_ && _); simpl; by rewrite IH.
Qed.

(** The materialized overload selects by the upper bound only: it is right
    on an ascending vector that has nothing below [first]. *)
Lemma intersection_DE_within (A : DenseSet) (B : ExplicitSet) :
  StronglySorted Z.le (elems B) → Forall (λ x, first A ≤ x) (elems B) →
  elems (intersection_DE A B) = within_dense A (elems B).
Proof.
  unfold intersection_DE, within_dense; simpl.
  induction 1 as [|i l Hs IH Hall]; intros Hlow; simpl; [done|].
  apply Forall_cons in Hlow as [Hi Hlow]. unfold in_dense at 1.
  destruct (Z.gtb_spec i (last A)) as [Hgt|Hle].
  - rewrite (proj2 (Z.leb_gt i (last A))) by lia. rewrite andb_false_r.
    symmetry. apply filter_none. intros x Hx.
    rewrite Forall_forall in Hall. apply Hall in Hx.
    unfold in_dense. rewrite (proj2 (Z.leb_gt x (last A))) by lia.
    apply andb_false_r.
  - rewrite (proj2 (Z.leb_le (first A) i) Hi), (proj2 (Z.leb_le i (last A)) Hle).
    simpl.
    by rewrite IH.
Qed.

(** C8.  The intersection of the interval [[3, 5]] with the vector
    [1; 4; 7] comes out as [1; 4]: the element 1, below [first], is kept,
    where only 4 falls within the interval.  The same happens with the
    interval [[0, 3]] of a four-token corpus and the vector [-1], which the
    evaluator reaches on the query [[c5!="NN1"] [c5="AT0"] []]. *)
Theorem intersection_DE_keeps_elements_below_first {library : Sorting.StdSort} :
  StronglySorted Z.lt [1; 4; 7] ∧
  intersection_DE (mkDenseSet 3 5) (mkExplicitSet [1; 4; 7]) = mkExplicitSet [1; 4] ∧
  intersection_ED (mkExplicitSet [1; 4; 7]) (mkDenseSet 3 5) = mkExplicitSet [1; 4] ∧
  within_dense (mkDenseSet 3 5) [1; 4; 7] = [4] ∧
  intersection_ID (mkIndexSet [1; 4; 7] 0) (mkDenseSet 3 5) = mkExplicitSet [4] ∧
  intersection_ED (mkExplicitSet [-1]) (mkDenseSet 0 3) = mkExplicitSet [-1] ∧
  within_dense (mkDenseSet 0 3) [-1] = [] ∧
  Evaluator.match2 Examples.two_sentences Examples.not_noun_then_article_then_any
    = inr [mkMatch (-1) (-1) 3].
Proof.
  split; [sorted_by_decision|]. do 6 (split; [vm_compute; reflexivity|]).
  assert (Evaluator.match_set_literal Examples.two_sentences (mkLiteral "c5" 4 false) 0
          = inr (mkMatchSet (VIndex (mkIndexSet [1; 3] 0)) true)) as Hnot_noun
    by (vm_compute; reflexivity).
  assert (Evaluator.match_set_literal Examples.two_sentences (mkLiteral "c5" 1 true)
            (0 + 1)
          = inr (mkMatchSet (VIndex (mkIndexSet [0; 2] 1)) false)) as Harticle
    by (vm_compute; reflexivity).
  unfold Evaluator.match2, Evaluator.match_set, Examples.not_noun_then_article_then_any.
  cbn [Evaluator.clause_sets].
  rewrite !PlannerSpec.match_set_clause_single, Hnot_noun, Harticle.
  cbn [Evaluator.match_set_clause].
  erewrite PlannerSpec.intersect_with_plan_two; [|reflexivity|reflexivity].
  vm_compute. reflexivity.
Qed.

End SetAlgebraSpec.

(** ** The query evaluator *)

Module EvaluatorSpec.
Import Sorting Evaluator Reference Examples PlannerSpec.

(** The length stored in a match depends on the representation of the final
    set: the query length on the [ExplicitSet] path, the constant 1 on the
    other two. *)
Lemma match2_len_explicit {library : StdSort} corpus query e c ms :
  match_set corpus query = inr (mkMatchSet (VExplicit e) c) →
  match2 corpus query = inr ms →
  Forall (λ m, len m = Z.of_nat (List.length query)) ms.
Proof.
  unfold match2. intros -> [= <-]. simpl.
  induction (elems e) as [|i l IH]; simpl; by constructor.
Qed.

Lemma match2_len_dense_or_index {library : StdSort} corpus query s c ms :
  match_set corpus query = inr (mkMatchSet s c) →
  (∀ e, s ≠ VExplicit e) →
  match2 corpus query = inr ms →
  Forall (λ m, len m = 1) ms.
Proof.
  unfold match2. intros -> Hs. destruct s as [d|i|e]; simpl.
  - intros [= <-]. induction (seqZ _ _) as [|x l IH]; simpl; by constructor.
  - intros [= <-]. induction (ielems i) as [|x l IH]; simpl; by constructor.
  - by destruct (Hs e).
Qed.

(** C1.  On the query [[] []] of two empty clauses the final set is a
    [DenseSet], and [match2] returns one match per token of the corpus with
    [len] 1, where the query has two clauses. *)
Theorem match2_dense_path_len_is_one {library : StdSort} :
  List.length any_then_any = 2%nat ∧
  match_set two_sentences any_then_any
    = inr (mkMatchSet (VDense (mkDenseSet 0 3)) false) ∧
  match2 two_sentences any_then_any
    = inr [mkMatch 0 0 1; mkMatch 0 1 1; mkMatch 1 2 1; mkMatch 1 3 1] ∧
  match_old two_sentences any_then_any
    = inr [mkMatch 0 0 2; mkMatch 1 2 2].
Proof.
  assert (match_set two_sentences any_then_any
          = inr (mkMatchSet (VDense (mkDenseSet 0 3)) false)) as Hset.
  { unfold match_set, any_then_any. cbn [clause_sets match_set_clause].
    rewrite intersect_with_plan_none by reflexivity.
    vm_compute. reflexivity. }
  split; [reflexivity|]. split; [exact Hset|]. split.
  - unfold match2. rewrite Hset. vm_compute. reflexivity.
  - vm_compute. reflexivity.
Qed.

(** C2.  On the corpus of two sentences [0, 2) and [2, 4), the query
    [[c5="NN1"] []] makes [match2] return the match (0, 1, 2), whose second
    token is the first of the next sentence, and the match (1, 3, 2), whose
    second token is past the end of the corpus; the query
    [[c5!="NN1"] [c5="AT0"]] makes it return (-1, -1, 2), a match that
    starts before the corpus, in no sentence.  The old matcher returns no
    match on either query. *)
Theorem match2_spans_leave_the_sentence {library : StdSort} :
  sentences two_sentences = [0; 2] ∧ List.length (tokens two_sentences) = 4%nat ∧
  string2index two_sentences !! "NN1"%string = Some 4 ∧
  string2index two_sentences !! "AT0"%string = Some 1 ∧
  match2 two_sentences noun_then_any = inr [mkMatch 0 1 2; mkMatch 1 3 2] ∧
  span_in_sentence two_sentences (mkMatch 0 1 2) = false ∧
  span_in_sentence two_sentences (mkMatch 1 3 2) = false ∧
  match_old two_sentences noun_then_any = inr [] ∧
  match2 two_sentences not_noun_then_article = inr [mkMatch (-1) (-1) 2] ∧
  span_in_sentence two_sentences (mkMatch (-1) (-1) 2) = false ∧
  match_old two_sentences not_noun_then_article = inr [].
Proof.
  assert (match_set_literal two_sentences (mkLiteral "c5" 4 true) 0
          = inr (mkMatchSet (VIndex (mkIndexSet [1; 3] 0)) false)) as Hnoun
    by (vm_compute; reflexivity).
  assert (match_set_literal two_sentences (mkLiteral "c5" 4 false) 0
          = inr (mkMatchSet (VIndex (mkIndexSet [1; 3] 0)) true)) as Hnot_noun
    by (vm_compute; reflexivity).
  assert (match_set_literal two_sentences (mkLiteral "c5" 1 true) (0 + 1)
          = inr (mkMatchSet (VIndex (mkIndexSet [0; 2] 1)) false)) as Harticle
    by (vm_compute; reflexivity).
  assert (match2 two_sentences noun_then_any
          = inr [mkMatch 0 1 2; mkMatch 1 3 2]) as H1.
  { unfold match2, match_set, noun_then_any. cbn [clause_sets].
    rewrite match_set_clause_single, Hnoun. cbn [match_set_clause].
    erewrite intersect_with_plan_one by reflexivity.
    vm_compute. reflexivity. }
  assert (match2 two_sentences not_noun_then_article
          = inr [mkMatch (-1) (-1) 2]) as H2.
  { unfold match2, match_set, not_noun_then_article. cbn [clause_sets].
    rewrite !match_set_clause_single, Hnot_noun, Harticle.
    erewrite intersect_with_plan_two; [|reflexivity|reflexivity].
    vm_compute. reflexivity. }
  split; [vm_compute; reflexivity|]. split; [vm_compute; reflexivity|].
  split; [vm_compute; reflexivity|]. split; [vm_compute; reflexivity|].
  split; [exact H1|].
  split; [vm_compute; reflexivity|]. split; [vm_compute; reflexivity|].
  split; [vm_compute; reflexivity|]. split; [exact H2|].
  split; vm_compute; reflexivity.
Qed.

(** C3.  On every corpus, the empty query is answered by the zeroed
    [DenseSet], the interval [[0, 0]], which holds position 0, and [match2]
    returns one match, at position 0 with length 1. *)
Theorem empty_query_yields_position_zero {library : StdSort} (corpus : Corpus) :
  match_set corpus [] = inr (mkMatchSet (VDense (mkDenseSet 0 0)) false) ∧
  in_dense (mkDenseSet 0 0) 0 = true ∧
  match2 corpus [] = inr [mkMatch (sentence_of corpus 0) 0 1] ∧
  match2 two_sentences [] = inr [mkMatch 0 0 1] ∧
  match2 empty_corpus [] = inr [mkMatch (-1) 0 1].
Proof. repeat split. Qed.

End EvaluatorSpec.

(** ** Laws of the pairwise operations on sorted operands *)

Module SetAlgebraLaws.
Import Search SearchSpec SetAlgebra Reference SetAlgebraSpec.

Lemma elem_of_list_filter (f : Z → bool) (l : list Z) (x : Z) :
  x ∈ List.filter f l ↔ x ∈ l ∧ f x = true.
Proof. rewrite !list_elem_of_In. apply filter_In. Qed.

Lemma filter_StronglySorted (R : relation Z) (f : Z → bool) (l : list Z) :
  StronglySorted R l → StronglySorted R (List.filter f l).
Proof.
  induction 1 as [|x l Hs IH Hall]; simpl; [constructor|].
  destruct (f x); [|done]. constructor; [done|].
  rewrite Forall_forall in *. intros y [Hy _]%elem_of_list_filter. auto.
Qed.

Lemma map_shift_StronglySorted (s : Z) (l : list Z) :
  StronglySorted Z.lt l → StronglySorted Z.lt (List.map (λ x, x - s) l).
Proof.
  induction 1 as [|x l Hs IH Hall]; simpl; constructor; [done|].
  rewrite Forall_forall in *. intros y Hy.
  apply list_elem_of_In, in_map_iff in Hy as (z & <- & Hz).
  apply list_elem_of_In, Hall in Hz. lia.
Qed.

Lemma strictly_sorted_NoDup (l : list Z) : StronglySorted Z.lt l → NoDup l.
Proof.
  induction 1 as [|x l Hs IH Hall]; constructor; [|done].
  intros Hin. rewrite Forall_forall in Hall. apply Hall in Hin. lia.
Qed.

(** Two strictly ascending lists with the same elements are the same list. *)
Lemma strictly_sorted_ext (l1 l2 : list Z) :
  StronglySorted Z.lt l1 → StronglySorted Z.lt l2 →
  (∀ x, x ∈ l1 ↔ x ∈ l2) → l1 = l2.
Proof.
  intros H1 H2 Hext.
  apply (StronglySorted_unique_strong Z.lt); [intros; lia|done|done|].
  apply NoDup_Permutation; auto using strictly_sorted_NoDup.
Qed.

Lemma shifted_intersection_sorted X Y d :
  StronglySorted Z.lt X → StronglySorted Z.lt (shifted_intersection X Y d).
Proof. apply filter_StronglySorted. Qed.

(** The probe driven by the right operand, without shifts, lists the same
    set as the filter of the left operand. *)
Lemma probe_swapped_unshifted X Y :
  StronglySorted Z.lt X → StronglySorted Z.lt Y →
  binary_intersect_two_sets Y X 0 0 = shifted_intersection X Y 0.
Proof.
  intros HX HY.
  rewrite binary_intersect_two_sets_sorted by by apply StronglySorted_lt_le.
  apply strictly_sorted_ext.
  - by apply filter_StronglySorted.
  - by apply shifted_intersection_sorted.
  - intros x. unfold shifted_intersection. rewrite !elem_of_list_filter.
    rewrite !bool_decide_eq_true. replace (x - 0 + 0) with x by lia.
    replace (x + 0) with x by lia. tauto.
Qed.

Lemma probe_unshifted X Y d :
  StronglySorted Z.lt Y →
  binary_intersect_two_sets X Y 0 d = shifted_intersection X Y d.
Proof.
  intros HY.
  rewrite binary_intersect_two_sets_sorted by by apply StronglySorted_lt_le.
  apply filter_agree. intros x _. f_equal.
  by replace (x - 0 + d) with (x + d) by lia.
Qed.

Lemma merge_unshifted X Y d :
  StronglySorted Z.lt X → StronglySorted Z.lt Y →
  intersect_two_sets X Y 0 d = shifted_intersection X Y d.
Proof.
  intros HX HY.
  rewrite intersect_two_sets_sorted by auto using StronglySorted_lt_le.
  rewrite map_sub_0. apply filter_agree. intros x _. f_equal.
  by replace (x - 0 + d) with (x + d) by lia.
Qed.

Lemma diff_probe_unshifted X Y d :
  StronglySorted Z.lt Y →
  binary_diff_two_sets X Y 0 d = shifted_difference X Y d.
Proof.
  intros HY.
  rewrite binary_diff_two_sets_sorted by by apply StronglySorted_lt_le.
  apply filter_agree. intros x _. do 2 f_equal.
  by replace (x - 0 + d) with (x + d) by lia.
Qed.

Lemma diff_merge_unshifted X Y d :
  StronglySorted Z.lt X → StronglySorted Z.lt Y →
  diff_two_sets X Y 0 d = shifted_difference X Y d.
Proof.
  intros HX HY.
  rewrite diff_two_sets_sorted by auto using StronglySorted_lt_le.
  rewrite map_sub_0. apply filter_agree. intros x _. do 2 f_equal.
  by replace (x - 0 + d) with (x + d) by lia.
Qed.

Lemma three_way_unshifted (X Y : list Z) :
  StronglySorted Z.lt X → StronglySorted Z.lt Y →
  (if size X * 10 <=? size Y
   then mkExplicitSet (binary_intersect_two_sets X Y 0 0)
   else if size X >? size Y * 10
   then mkExplicitSet (binary_intersect_two_sets Y X 0 0)
   else mkExplicitSet (intersect_two_sets X Y 0 0))
  = mkExplicitSet (shifted_intersection X Y 0).
Proof.
  intros HX HY.
  destruct (_ <=? _); [by rewrite probe_unshifted|].
  destruct (_ >? _); [by rewrite probe_swapped_unshifted|].
  by rewrite merge_unshifted.
Qed.

Lemma elem_of_shifted_intersection_0 (X Y : list Z) (x : Z) :
  x ∈ shifted_intersection X Y 0 ↔ x ∈ X ∧ x ∈ Y.
Proof.
  unfold shifted_intersection. rewrite elem_of_list_filter, bool_decide_eq_true.
  by replace (x + 0) with x by lia.
Qed.

Lemma two_way_diff_unshifted (X Y : list Z) :
  StronglySorted Z.lt X → StronglySorted Z.lt Y →
  (if size X >=? size Y * 10
   then mkExplicitSet (binary_diff_two_sets X Y 0 0)
   else mkExplicitSet (diff_two_sets X Y 0 0))
  = mkExplicitSet (shifted_difference X Y 0).
Proof.
  intros HX HY.
  destruct (_ >=? _); [by rewrite diff_probe_unshifted|].
  by rewrite diff_merge_unshifted.
Qed.

Lemma elem_of_shifted_difference_0 (X Y : list Z) (x : Z) :
  x ∈ shifted_difference X Y 0 ↔ x ∈ X ∧ x ∉ Y.
Proof.
  unfold shifted_difference.
  rewrite elem_of_list_filter, negb_true_iff, bool_decide_eq_false.
  by replace (x + 0) with x by lia.
Qed.

(** Where the table of [intersection] is right: on two strictly ascending
    vectors without shift, each an index view or a materialized set, the
    returned set is the one of the table in all four rows, whichever
    algorithm the size rule selects. *)
Lemma intersection_table_on_vectors (ia ib ca cb : bool) (X Y : list Z) :
  StronglySorted Z.lt X → StronglySorted Z.lt Y →
  let a := vector_view ia X in
  let b := vector_view ib Y in
  let R := intersection (mkMatchSet a ca) (mkMatchSet b cb) in
  complement R = ca && cb ∧
  ∀ x, member (set R) x = table_member ca cb a b x.
Proof.
  intros HX HY a b R. unfold R, a, b, table_member.
  rewrite intersection_by_bits. cbn [complement set].
  assert (∀ x, bool_decide (x ∈ shifted_intersection X Y 0)
               = bool_decide (x ∈ X) && bool_decide (x ∈ Y)) as Hi.
  { intros x. rewrite <- bool_decide_and.
    apply bool_decide_ext, elem_of_shifted_intersection_0. }
  assert (∀ x, bool_decide (x ∈ shifted_intersection Y X 0)
               = bool_decide (x ∈ X) && bool_decide (x ∈ Y)) as Hi'.
  { intros x. rewrite <- bool_decide_and. apply bool_decide_ext.
    rewrite elem_of_shifted_intersection_0. tauto. }
  assert (∀ X Y x, bool_decide (x ∈ shifted_difference X Y 0)
               = bool_decide (x ∈ X) && negb (bool_decide (x ∈ Y))) as Hd.
  { intros X' Y' x. rewrite <- bool_decide_not, <- bool_decide_and.
    apply bool_decide_ext, elem_of_shifted_difference_0. }
  destruct ca, cb, ia, ib;
    cbn [vector_view intersection_variant difference_variant complement set andb];
    unfold intersection_II, intersection_EI, intersection_IE, intersection_EE,
      difference_II, difference_EI, difference_IE, difference_EE;
    cbn [ielems shift elems];
    rewrite ?(three_way_unshifted X Y HX HY), ?(three_way_unshifted Y X HY HX),
      ?(two_way_diff_unshifted X Y HX HY), ?(two_way_diff_unshifted Y X HY HX);
    (split; [reflexivity|]); intros x; cbn [member elems ielems shift];
    rewrite ?Z.add_0_r; by rewrite ?Hi, ?Hi', ?Hd.
Qed.

(** X1.  Intersection of two materialized sets: whichever of the three
    algorithms the size rule selects, the result is the list of the common
    elements, and the two argument orders agree. *)
Theorem intersection_EE_sorted (A B : ExplicitSet) :
  StronglySorted Z.lt (elems A) → StronglySorted Z.lt (elems B) →
  elems (intersection_EE A B) = shifted_intersection (elems A) (elems B) 0 ∧
  intersection_EE A B = intersection_EE B A.
Proof.
  intros HA HB.
  assert (∀ X Y, StronglySorted Z.lt (elems X) → StronglySorted Z.lt (elems Y) →
            elems (intersection_EE X Y) = shifted_intersection (elems X) (elems Y) 0)
    as Hchar.
  { intros X Y HX HY. unfold intersection_EE.
    destruct (_ <=? _); simpl; [by apply probe_unshifted|].
    destruct (_ >? _); simpl; [by apply probe_swapped_unshifted|].
    by apply merge_unshifted. }
  split; [by apply Hchar|].
  assert (elems (intersection_EE A B) = elems (intersection_EE B A)) as Heq.
  { rewrite !Hchar by done. apply strictly_sorted_ext;
      [by apply shifted_intersection_sorted..|].
    intros x. unfold shifted_intersection. rewrite !elem_of_list_filter.
    rewrite !bool_decide_eq_true. replace (x + 0) with x by lia. tauto. }
  destruct (intersection_EE A B), (intersection_EE B A). simpl in Heq. by subst.
Qed.

Lemma intersection_EE_sorted_witness :
  StronglySorted Z.lt [1; 3; 5] ∧ StronglySorted Z.lt [3; 4; 5; 6] ∧
  elems (intersection_EE (mkExplicitSet [1; 3; 5]) (mkExplicitSet [3; 4; 5; 6]))
    = [3; 5].
Proof.
  assert (StronglySorted Z.lt [1; 3; 5]) as H1
    by (apply (bool_decide_unpack _); vm_compute; exact I).
  assert (StronglySorted Z.lt [3; 4; 5; 6]) as H2
    by (apply (bool_decide_unpack _); vm_compute; exact I).
  split; [exact H1|]. split; [exact H2|].
  exact (proj1 (intersection_EE_sorted (mkExplicitSet [1; 3; 5])
                  (mkExplicitSet [3; 4; 5; 6]) H1 H2)).
Defined.

(** X2.  Intersection of an index view without shift and a materialized set, in
    both argument orders: the common elements, whichever algorithm runs. *)
Theorem intersection_IE_unshifted (X : list Z) (B : ExplicitSet) :
  StronglySorted Z.lt X → StronglySorted Z.lt (elems B) →
  elems (intersection_IE (mkIndexSet X 0) B) = shifted_intersection X (elems B) 0 ∧
  elems (intersection_EI B (mkIndexSet X 0)) = shifted_intersection X (elems B) 0.
Proof.
  intros HX HB.
  assert (elems (intersection_IE (mkIndexSet X 0) B)
          = shifted_intersection X (elems B) 0) as H.
  { unfold intersection_IE; simpl.
    destruct (_ <=? _); simpl; [by apply probe_unshifted|].
    destruct (_ >? _); simpl; [by apply probe_swapped_unshifted|].
    by apply merge_unshifted. }
  by split.
Qed.

Lemma intersection_IE_unshifted_witness :
  StronglySorted Z.lt [2; 4] ∧ StronglySorted Z.lt [1; 2; 3] ∧
  elems (intersection_EI (mkExplicitSet [1; 2; 3]) (mkIndexSet [2; 4] 0)) = [2].
Proof.
  assert (StronglySorted Z.lt [2; 4]) as H1
    by (apply (bool_decide_unpack _); vm_compute; exact I).
  assert (StronglySorted Z.lt [1; 2; 3]) as H2
    by (apply (bool_decide_unpack _); vm_compute; exact I).
  split; [exact H1|]. split; [exact H2|].
  exact (proj2 (intersection_IE_unshifted [2; 4] (mkExplicitSet [1; 2; 3]) H1 H2)).
Defined.

(** X3.  The four differences computed by merge or probe: when the left operand
    carries no shift, the result is the list of the elements [x] of the left
    operand with [x + d] not in the right one, [d] being the shift of the
    right operand, whichever algorithm the size rule selects. *)
Theorem difference_unshifted_left (X Y : list Z) (d : Z) :
  StronglySorted Z.lt X → StronglySorted Z.lt Y →
  elems (difference_II (mkIndexSet X 0) (mkIndexSet Y d)) = shifted_difference X Y d ∧
  elems (difference_EI (mkExplicitSet X) (mkIndexSet Y d)) = shifted_difference X Y d ∧
  elems (difference_IE (mkIndexSet X 0) (mkExplicitSet Y)) = shifted_difference X Y 0 ∧
  elems (difference_EE (mkExplicitSet X) (mkExplicitSet Y)) = shifted_difference X Y 0.
Proof.
  intros HX HY.
  unfold difference_II, difference_EI, difference_IE, difference_EE; simpl.
  destruct (_ >=? _); simpl;
    repeat split; auto using diff_probe_unshifted, diff_merge_unshifted.
Qed.

Lemma difference_unshifted_left_witness :
  StronglySorted Z.lt [0; 2; 5] ∧ StronglySorted Z.lt [3; 9] ∧
  elems (difference_II (mkIndexSet [0; 2; 5] 0) (mkIndexSet [3; 9] 1)) = [0; 5].
Proof.
  assert (StronglySorted Z.lt [0; 2; 5]) as H1
    by (apply (bool_decide_unpack _); vm_compute; exact I).
  assert (StronglySorted Z.lt [3; 9]) as H2
    by (apply (bool_decide_unpack _); vm_compute; exact I).
  split; [exact H1|]. split; [exact H2|].
  exact (proj1 (difference_unshifted_left [0; 2; 5] [3; 9] 1 H1 H2)).
Defined.

(** X4.  Membership in the intersection of two intervals is membership in
    both; the intersection does not depend on the argument order. *)
Theorem intersection_DD_membership (A B : DenseSet) (x : Z) :
  in_dense (intersection_DD A B) x = in_dense A x && in_dense B x ∧
  intersection_DD A B = intersection_DD B A.
Proof.
  split.
  - unfold in_dense, intersection_DD; simpl.
    destruct (Z.leb_spec (Z.max (first A) (first B)) x),
      (Z.leb_spec x (Z.min (last A) (last B))),
      (Z.leb_spec (first A) x), (Z.leb_spec x (last A)),
      (Z.leb_spec (first B) x), (Z.leb_spec x (last B)); simpl; lia.
  - unfold intersection_DD. by rewrite Z.max_comm, Z.min_comm.
Qed.

Lemma diff_dense_loop_step n p b B s :
  diff_dense_loop (S n) p (b :: B) s =
  if p <? b - s then p :: diff_dense_loop n (p + 1) (b :: B) s
  else if p >? b - s then diff_dense_loop (S n) p B s
  else diff_dense_loop n (p + 1) B s.
Proof. reflexivity. Qed.

Lemma seqZ_S_cons (p : Z) (n : nat) :
  seqZ p (Z.of_nat (S n)) = p :: seqZ (p + 1) (Z.of_nat n).
Proof.
  rewrite seqZ_cons by lia. f_equal. f_equal; lia.
Qed.

Lemma seqZ_lower (p : Z) (n : Z) (x : Z) : x ∈ seqZ p n → p ≤ x.
Proof. rewrite elem_of_seqZ. lia. Qed.

(** The joint walk over the interval and an ascending [B] keeps the
    integers [q] from [p] on with [q + s] not in [B]. *)
Lemma diff_dense_loop_sorted (n : nat) (p : Z) (B : list Z) (s : Z) :
  StronglySorted Z.le B →
  diff_dense_loop n p B s =
  List.filter (λ q, negb (bool_decide (q + s ∈ B))) (seqZ p (Z.of_nat n)).
Proof.
  revert p B. induction n as [|n IHn]; intros p B HB; [done|].
  induction HB as [|b B HB IHB Hall].
  - rewrite seqZ_S_cons. cbn [diff_dense_loop List.filter].
    rewrite bool_decide_false by apply not_elem_of_nil. cbn [negb].
    f_equal. apply IHn. constructor.
  - rewrite diff_dense_loop_step, seqZ_S_cons. rewrite Forall_forall in Hall.
    destruct (Z.ltb_spec p (b - s)) as [Hlt|Hge].
    + cbn [List.filter]. rewrite bool_decide_false.
      * cbn [negb]. f_equal. apply IHn. constructor; [done|].
        by apply Forall_forall.
      * intros [?|Hin]%elem_of_cons; [lia|]. apply Hall in Hin. lia.
    + destruct (Z.gtb_spec p (b - s)) as [Hgt|Hle].
      * rewrite IHB, seqZ_S_cons. apply filter_agree. intros q Hq.
        f_equal. apply bool_decide_ext. rewrite elem_of_cons.
        assert (p ≤ q).
        { apply elem_of_cons in Hq as [->|Hq%seqZ_lower]; lia. }
        split; auto. intros [?|?]; [lia|done].
      * cbn [List.filter]. rewrite bool_decide_true
          by (apply elem_of_cons; left; lia).
        cbn [negb]. rewrite IHn by done. apply filter_agree. intros q Hq%seqZ_lower.
        f_equal. apply bool_decide_ext. rewrite elem_of_cons.
        split; auto. intros [?|?]; [lia|done].
Qed.

Lemma diff_dense_left_filter (A : DenseSet) (B : list Z) (s : Z) :
  StronglySorted Z.le B →
  elems (difference_DI A (mkIndexSet B s)) =
    List.filter (λ q, negb (bool_decide (q + s ∈ B)))
      (seqZ (first A) (last A - first A + 1)) ∧
  elems (difference_DE A (mkExplicitSet B)) =
    List.filter (λ q, negb (bool_decide (q + 0 ∈ B)))
      (seqZ (first A) (last A - first A + 1)).
Proof.
  intros HB. unfold difference_DI, difference_DE, diff_dense_x; simpl.
  rewrite !diff_dense_loop_sorted by done.
  unfold seqZ. by rewrite Nat2Z.id.
Qed.

(** X5.  Difference of an interval and a sorted set, given as an index view
    with its shift or as a materialized vector: the integers of the
    interval, in ascending order, whose shifted value is not in the set. *)
Theorem difference_dense_left_sorted (A : DenseSet) (B : list Z) (s : Z) :
  StronglySorted Z.le B →
  elems (difference_DI A (mkIndexSet B s)) =
    List.filter (λ q, negb (bool_decide (q + s ∈ B)))
      (seqZ (first A) (last A - first A + 1)) ∧
  elems (difference_DE A (mkExplicitSet B)) =
    List.filter (λ q, negb (bool_decide (q + 0 ∈ B)))
      (seqZ (first A) (last A - first A + 1)).
Proof.
  exact (diff_dense_left_filter A B s).
Qed.

Lemma difference_dense_left_sorted_witness :
  StronglySorted Z.le [2; 3; 8] ∧
  elems (difference_DI (mkDenseSet 0 4) (mkIndexSet [2; 3; 8] 1)) = [0; 3; 4].
Proof.
  assert (StronglySorted Z.le [2; 3; 8]) as H
    by (apply (bool_decide_unpack _); vm_compute; exact I).
  split; [exact H|].
  exact (proj1 (difference_dense_left_sorted (mkDenseSet 0 4) [2; 3; 8] 1 H)).
Defined.

Lemma seqZ_StronglySorted (p n : Z) : StronglySorted Z.lt (seqZ p n).
Proof.
  replace (seqZ p n) with (seqZ p (Z.of_nat (Z.to_nat n)))
    by (unfold seqZ; by rewrite Nat2Z.id).
  generalize (Z.to_nat n) as k. clear n. intros k. revert p.
  induction k as [|k IH]; intros p; [constructor|].
  rewrite seqZ_S_cons. constructor; [apply IH|].
  apply Forall_forall. intros x Hx%seqZ_lower. lia.
Qed.

Lemma copy_upto_StronglySorted (R : relation Z) (k : Z) (l : list Z) :
  StronglySorted R l → StronglySorted R (copy_upto k l).
Proof.
  induction 1 as [|x l Hs IH Hall]; simpl; [constructor|].
  destruct (x >? k); constructor; [done|].
  rewrite Forall_forall in *. intros y Hy. apply Hall.
  clear -Hy. induction l as [|z l IHl]; simpl in *; [done|].
  destruct (z >? k); [by apply elem_of_nil in Hy|].
  apply elem_of_cons in Hy as [->|Hy]; [left|right; auto].
Qed.

Lemma copy_upto_elem (k : Z) (l : list Z) (y : Z) : y ∈ copy_upto k l → y ∈ l.
Proof.
  induction l as [|z l IHl]; simpl; [done|].
  destruct (z >? k); [by intros ?%elem_of_nil|].
  intros [->|Hy]%elem_of_cons; [left|right; auto].
Qed.

Section sorted_results.
Import Invariants.
Context (A B : list Z) (sa sb : Z).
Hypothesis HA : StronglySorted Z.lt A.
Hypothesis HB : StronglySorted Z.lt B.

Lemma binary_intersect_keeps_sorted :
  StronglySorted Z.lt (binary_intersect_two_sets A B sa sb).
Proof. by apply filter_StronglySorted. Qed.

Lemma binary_diff_keeps_sorted :
  StronglySorted Z.lt (binary_diff_two_sets A B sa sb).
Proof. by apply filter_StronglySorted. Qed.

Lemma intersect_keeps_sorted :
  StronglySorted Z.lt (intersect_two_sets A B sa sb).
Proof.
  rewrite intersect_two_sets_sorted by auto using StronglySorted_lt_le.
  by apply map_shift_StronglySorted, filter_StronglySorted.
Qed.

Lemma diff_keeps_sorted :
  StronglySorted Z.lt (diff_two_sets A B sa sb).
Proof.
  rewrite diff_two_sets_sorted by auto using StronglySorted_lt_le.
  by apply map_shift_StronglySorted, filter_StronglySorted.
Qed.

Lemma diff_dense_x_keeps_sorted (D : DenseSet) :
  StronglySorted Z.lt (elems (diff_dense_x D B sb)).
Proof.
  unfold diff_dense_x; simpl.
  rewrite diff_dense_loop_sorted by auto using StronglySorted_lt_le.
  apply filter_StronglySorted, seqZ_StronglySorted.
Qed.

Lemma diff_x_denseset_keeps_sorted (D : DenseSet) :
  StronglySorted Z.lt (elems (diff_x_denseset A D sa)).
Proof.
  unfold diff_x_denseset; simpl.
  by apply filter_StronglySorted, map_shift_StronglySorted.
Qed.
End sorted_results.

Lemma pairwise_keep_sorted (a b : SetVariant) :
  Invariants.variant_sorted a → Invariants.variant_sorted b →
  Invariants.variant_sorted (intersection_variant a b) ∧
  Invariants.variant_sorted (difference_variant a b).
Proof.
  destruct a as [da|ia|ea], b as [db|ib|eb]; simpl; intros Ha Hb; split;
    try exact I;
    unfold intersection_DI, intersection_ID, intersection_DE, intersection_ED,
      intersection_II, intersection_IE, intersection_EI, intersection_EE,
      difference_DI, difference_ID, difference_DE, difference_ED,
      difference_II, difference_IE, difference_EI, difference_EE,
      intersection_IE;
    repeat match goal with
    | |- context [if ?c then _ else _] => destruct c
    end; simpl;
    auto using binary_intersect_keeps_sorted, binary_diff_keeps_sorted,
      intersect_keeps_sorted, diff_keeps_sorted, diff_dense_x_keeps_sorted,
      diff_x_denseset_keeps_sorted, copy_upto_StronglySorted,
      map_shift_StronglySorted, filter_StronglySorted;
    match goal with
    | |- StronglySorted Z.lt (diff_dense_loop _ (first ?d) ?l ?s) =>
        apply (diff_dense_x_keeps_sorted l s Hb d)
    end.
Qed.

(** X6.  Every pairwise intersection and difference, on every pair of
    representations and in every branch of the size rule, returns a strictly
    ascending vector when its sorted operands are strictly ascending: the
    order that the next operation relies on is kept. *)
Theorem pairwise_operations_keep_sorted (a b : SetVariant) :
  Invariants.variant_sorted a → Invariants.variant_sorted b →
  Invariants.variant_sorted (intersection_variant a b) ∧
  Invariants.variant_sorted (difference_variant a b).
Proof.
  exact (pairwise_keep_sorted a b).
Qed.

Lemma pairwise_operations_keep_sorted_witness :
  Invariants.variant_sorted (VIndex (mkIndexSet [1; 3] 1)) ∧
  Invariants.variant_sorted (VExplicit (mkExplicitSet [0; 2; 7])) ∧
  Invariants.variant_sorted
    (intersection_variant (VIndex (mkIndexSet [1; 3] 1))
       (VExplicit (mkExplicitSet [0; 2; 7]))).
Proof.
  assert (Invariants.variant_sorted (VIndex (mkIndexSet [1; 3] 1))) as H1
    by (apply (bool_decide_unpack _); vm_compute; exact I).
  assert (Invariants.variant_sorted (VExplicit (mkExplicitSet [0; 2; 7]))) as H2
    by (apply (bool_decide_unpack _); vm_compute; exact I).
  split; [exact H1|]. split; [exact H2|].
  exact (proj1 (pairwise_operations_keep_sorted _ _ H1 H2)).
Defined.

End SetAlgebraLaws.

(** ** Sorting by a key *)

Module SortingSpec.
Import Sorting.

Import Invariants.

Section by_key.
Context {A : Type} (key : A → Z).

Lemma insert_sorted_perm (lt : A → A → bool) x l :
  insert_sorted lt x l ≡ₚ x :: l.
Proof.
  induction l as [|y l IH]; simpl; [done|].
  destruct (lt x y); [done|]. rewrite IH. apply Permutation_swap.
Qed.

Lemma stable_sort_acc_perm (lt : A → A → bool) l acc :
  foldl (λ sorted x, insert_sorted lt x sorted) acc l ≡ₚ acc ++ l.
Proof.
  revert acc. induction l as [|x l IH]; intros acc; simpl.
  - by rewrite app_nil_r.
  - rewrite IH, insert_sorted_perm. simpl. apply Permutation_middle.
Qed.

Lemma stable_sort_perm (lt : A → A → bool) l : stable_sort lt l ≡ₚ l.
Proof. apply (stable_sort_acc_perm lt l []). Qed.

Lemma insert_sorted_key_sorted x l :
  key_sorted key l → key_sorted key (insert_sorted (key_lt key) x l).
Proof.
  unfold key_sorted, key_lt.
  induction 1 as [|y l Hs IH Hall]; simpl; [repeat constructor|].
  destruct (Z.ltb_spec (key x) (key y)) as [Hlt|Hge].
  - constructor; [by constructor|]. constructor; [lia|].
    eapply Forall_impl; [exact Hall|]. intros z Hz. simpl in *. lia.
  - constructor; [done|]. rewrite insert_sorted_perm. by constructor.
Qed.

(** Insertion behind the elements that are not greater keeps, for every key
    value, the elements of that key in their order, the new one last. *)
Lemma insert_sorted_stable x l v :
  key_sorted key l →
  List.filter (λ a, key a =? v) (insert_sorted (key_lt key) x l) =
  List.filter (λ a, key a =? v) l ++ (if key x =? v then [x] else []).
Proof.
  unfold key_sorted, key_lt.
  induction 1 as [|y l Hs IH Hall]; simpl; [done|].
  destruct (Z.ltb_spec (key x) (key y)) as [Hlt|Hge]; simpl.
  - destruct (Z.eqb_spec (key x) v) as [Hx|Hx]; [|by rewrite app_nil_r].
    assert (List.filter (λ a, key a =? v) l = []) as ->.
    { clear -Hall Hlt Hx. induction Hall as [|z l Hz _ IHl]; simpl; [done|].
      rewrite (proj2 (Z.eqb_neq (key z) v)) by lia. done. }
    by rewrite (proj2 (Z.eqb_neq (key y) v)) by lia.
  - rewrite IH. by destruct (key y =? v).
Qed.

Lemma stable_sort_acc l acc :
  key_sorted key acc →
  key_sorted key (foldl (λ sorted x, insert_sorted (key_lt key) x sorted) acc l) ∧
  ∀ v, List.filter (λ a, key a =? v)
         (foldl (λ sorted x, insert_sorted (key_lt key) x sorted) acc l) =
       List.filter (λ a, key a =? v) acc ++ List.filter (λ a, key a =? v) l.
Proof.
  revert acc. induction l as [|x l IH]; intros acc Hacc; simpl.
  - split; [done|]. intros v. by rewrite app_nil_r.
  - destruct (IH (insert_sorted (key_lt key) x acc)) as [Hs Hf].
    { by apply insert_sorted_key_sorted. }
    split; [done|]. intros v. rewrite Hf, insert_sorted_stable by done.
    rewrite <- app_assoc. by destruct (key x =? v).
Qed.

(** The sort orders by the key and keeps the elements of equal key in
    their order. *)
Lemma stable_sort_key_sorted l : key_sorted key (stable_sort (key_lt key) l).
Proof. apply (stable_sort_acc l []). constructor. Qed.

Lemma stable_sort_stable l v :
  List.filter (λ a, key a =? v) (stable_sort (key_lt key) l) =
  List.filter (λ a, key a =? v) l.
Proof.
  destruct (stable_sort_acc l []) as [_ H]; [constructor|]. apply H.
Qed.

End by_key.

(** The contract of [std::sort] can be kept: the insertion sort keeps it.
    It is the sort that the examples below are run with. *)
Lemma insertion_sort : StdSort.
Proof.
  exact {| std_sort := @stable_sort;
           std_sort_perm := @stable_sort_perm;
           std_sort_sorted := @stable_sort_key_sorted |}.
Defined.

End SortingSpec.

(** ** The attribute indices *)

Module IndexingSpec.
Import Search SearchSpec Sorting SortingSpec Indexing Invariants SetAlgebraSpec.

Lemma build_index_spec (tokens : list Token) (attr : Token → Z) :
  let key := λ a, attr (token_at tokens a) in
  build_index tokens attr ≡ₚ seqZ 0 (Z.of_nat (List.length tokens)) ∧
  key_sorted key (build_index tokens attr) ∧
  ∀ v, List.filter (λ a, key a =? v) (build_index tokens attr)
       = positions_with tokens attr v.
Proof.
  intros key. unfold build_index. split; [apply stable_sort_perm|]. split.
  - apply (stable_sort_key_sorted key).
  - intros v. apply (stable_sort_stable key).
Qed.

(** X7.  [build_index] returns a permutation of the positions [0..T-1], ordered
    by the attribute, in which the positions of every attribute value stand
    in ascending order. *)
Theorem build_index_sorted_stable (tokens : list Token) (attr : Token → Z) :
  let key := λ a, attr (token_at tokens a) in
  build_index tokens attr ≡ₚ seqZ 0 (Z.of_nat (List.length tokens)) ∧
  key_sorted key (build_index tokens attr) ∧
  ∀ v, List.filter (λ a, key a =? v) (build_index tokens attr)
       = positions_with tokens attr v.
Proof.
  exact (build_index_spec tokens attr).
Qed.

Lemma key_sorted_nth (key : Z → Z) (l : list Z) (i j : nat) :
  key_sorted key l → (i ≤ j < List.length l)%nat →
  key (nth i l 0) ≤ key (nth j l 0).
Proof.
  intros Hs. revert i j. induction Hs as [|x l Hs IH Hall]; intros i j Hij.
  - simpl in Hij. lia.
  - destruct i as [|i], j as [|j]; simpl in *; try lia.
    + rewrite Forall_forall in Hall. apply Hall, list_elem_of_In, nth_In. lia.
    + apply IH. lia.
Qed.

Lemma Forall_take_nth (P : Z → Prop) (l : list Z) (r : nat) :
  (∀ i, (i < r)%nat → P (nth i l 0)) → (r ≤ List.length l)%nat →
  Forall P (take r l).
Proof.
  intros H Hr. apply Forall_lookup. intros i x [Hx Hi]%lookup_take_Some.
  rewrite <- (nth_lookup_Some _ _ 0 _ Hx). by apply H.
Qed.

Lemma Forall_drop_nth (P : Z → Prop) (l : list Z) (r : nat) :
  (∀ i, (r ≤ i < List.length l)%nat → P (nth i l 0)) → Forall P (drop r l).
Proof.
  intros H. apply Forall_lookup. intros i x Hx. rewrite lookup_drop in Hx.
  rewrite <- (nth_lookup_Some _ _ 0 _ Hx). apply H.
  apply lookup_lt_Some in Hx. lia.
Qed.

Lemma filter_all (f : Z → bool) (l : list Z) :
  Forall (λ x, f x = true) l → List.filter f l = l.
Proof.
  induction 1 as [|x l Hx _ IH]; simpl; [done|]. by rewrite Hx, IH.
Qed.

(** A list cut in three, below, at and above a key value. *)
Lemma filter_middle (key : Z → Z) (v : Z) (l1 l2 l3 : list Z) :
  Forall (λ a, key a < v) l1 → Forall (λ a, key a = v) l2 →
  Forall (λ a, v < key a) l3 →
  List.filter (λ a, key a =? v) (l1 ++ l2 ++ l3) = l2.
Proof.
  intros H1 H2 H3. rewrite !List.filter_app.
  rewrite (filter_none _ l1), (filter_none _ l3), (filter_all _ l2).
  - by rewrite app_nil_r.
  - eapply Forall_impl; [exact H2|]. intros a Ha. simpl in *. by apply Z.eqb_eq.
  - rewrite Forall_forall in H3. intros a Ha%H3. apply Z.eqb_neq. lia.
  - rewrite Forall_forall in H1. intros a Ha%H1. apply Z.eqb_neq. lia.
Qed.

Lemma key_sorted_drop (key : Z → Z) (l : list Z) (r : nat) :
  key_sorted key l → key_sorted key (drop r l).
Proof.
  unfold key_sorted. rewrite <- (take_drop r l) at 1.
  apply StronglySorted_app_1_r.
Qed.

(** The two binary searches of [index_lookup] cut out of a key-ordered index
    the run of the positions whose key is the value. *)
Lemma equal_range_filter (key : Z → Z) (idx : list Z) (v : Z) :
  key_sorted key idx →
  let first := lower_bound idx (λ a, key a <? v) in
  let from_first := drop first idx in
  let count := upper_bound from_first (λ b, v <? key b) in
  take count from_first = List.filter (λ a, key a =? v) idx.
Proof.
  intros Hs first from_first count.
  destruct (bisect_partition_point (λ a, key a <? v) idx
              (List.length idx) 0 (List.length idx))
    as (Hr1 & Hlow1 & Hhigh1); [lia|lia| |lia|lia|].
  { intros i j Hij Hj. apply Z.ltb_lt in Hj. apply Z.ltb_lt.
    pose proof (key_sorted_nth key idx i j Hs Hij). lia. }
  fold (lower_bound idx (λ a, key a <? v)) in Hr1, Hlow1, Hhigh1.
  fold first in Hr1, Hlow1, Hhigh1.
  assert (key_sorted key from_first) as Hs2 by by apply key_sorted_drop.
  destruct (bisect_partition_point (λ x, negb (v <? key x)) from_first
              (List.length from_first) 0 (List.length from_first))
    as (Hr2 & Hlow2 & Hhigh2); [lia|lia| |lia|lia|].
  { intros i j Hij Hj. apply negb_true_iff, Z.ltb_ge in Hj.
    apply negb_true_iff, Z.ltb_ge.
    pose proof (key_sorted_nth key from_first i j Hs2 Hij). lia. }
  fold (upper_bound from_first (λ b, v <? key b)) in Hr2, Hlow2, Hhigh2.
  fold count in Hr2, Hlow2, Hhigh2.
  assert (Forall (λ a, v ≤ key a) from_first) as Hge.
  { apply Forall_drop_nth. intros i Hi. apply Hhigh1 in Hi.
    by apply Z.ltb_ge in Hi. }
  assert (idx = take first idx ++ take count from_first ++ drop count from_first)
    as Hsplit.
  { rewrite (take_drop count from_first). unfold from_first.
    by rewrite (take_drop first idx). }
  symmetry. etrans; [exact (f_equal (List.filter _) Hsplit)|].
  apply filter_middle.
  - apply Forall_take_nth; [|lia]. intros i Hi. by apply Z.ltb_lt, Hlow1.
  - assert (Forall (λ a, key a ≤ v) (take count from_first)) as Hle.
    { apply Forall_take_nth; [|lia]. intros i Hi.
      apply Hlow2 in Hi. by apply negb_true_iff, Z.ltb_ge in Hi. }
    apply Forall_take with (n := count) in Hge.
    rewrite Forall_forall in *. intros a Ha.
    specialize (Hle a Ha). specialize (Hge a Ha). simpl in *. lia.
  - apply Forall_drop_nth. intros i Hi. apply Hhigh2 in Hi.
    by apply negb_false_iff, Z.ltb_lt in Hi.
Qed.

Lemma lookup_in_built_index (tokens : list Token) (attr : Token → Z) (v : Z) :
  let index := build_index tokens attr in
  let first := lower_bound index (λ a, attr (token_at tokens a) <? v) in
  let from_first := drop first index in
  let count := upper_bound from_first (λ b, v <? attr (token_at tokens b)) in
  take count from_first = positions_with tokens attr v.
Proof.
  intros index first from_first count.
  destruct (build_index_spec tokens attr) as (_ & Hs & Hst).
  rewrite <- Hst.
  apply (equal_range_filter (λ a, attr (token_at tokens a)) index v Hs).
Qed.

Lemma index_lookup_positions (corpus : Corpus) (attribute : string) (v : Z) :
  known_attribute attribute = true →
  index_lookup (build_indices corpus) attribute v =
  inr {| ielems := positions_with (tokens corpus) (attribute_field attribute) v;
         shift := 0 |}.
Proof.
  unfold known_attribute, index_lookup, select_attribute, attribute_field.
  intros Hknown.
  destruct (String.eqb attribute "word");
    [|destruct (String.eqb attribute "c5");
      [|destruct (String.eqb attribute "lemma");
        [|destruct (String.eqb attribute "pos"); [|discriminate]]]];
    simpl; do 2 f_equal; apply lookup_in_built_index.
Qed.

(** X8.  On a corpus whose indices were built by [build_indices], [index_lookup]
    with one of the four attribute names returns, at shift 0, exactly the
    positions of the tokens that carry the value, in ascending order (none
    when no token carries it). *)
Theorem index_lookup_built (corpus : Corpus) (attribute : string) (v : Z) :
  known_attribute attribute = true →
  index_lookup (build_indices corpus) attribute v =
  inr {| ielems := positions_with (tokens corpus) (attribute_field attribute) v;
         shift := 0 |}.
Proof.
  exact (index_lookup_positions corpus attribute v).
Qed.

Lemma index_lookup_built_witness :
  known_attribute "c5" = true ∧
  index_lookup (build_indices Fixtures.four_tokens) "c5" 4 =
  inr {| ielems := positions_with (tokens Fixtures.four_tokens)
                     (attribute_field "c5") 4;
         shift := 0 |}.
Proof.
  split; [reflexivity|].
  exact (index_lookup_built Fixtures.four_tokens "c5" 4 eq_refl).
Defined.

Lemma index_lookup_raises (corpus : Corpus) (attribute : string) (v : Z) :
  (∃ e, index_lookup corpus attribute v = inl e) ↔ known_attribute attribute = false.
Proof.
  unfold known_attribute, index_lookup, select_attribute.
  destruct (String.eqb attribute "word"); simpl;
    [split; [by intros [? ?]|done]|].
  destruct (String.eqb attribute "c5"); simpl;
    [split; [by intros [? ?]|done]|].
  destruct (String.eqb attribute "lemma"); simpl;
    [split; [by intros [? ?]|done]|].
  destruct (String.eqb attribute "pos"); simpl;
    [split; [by intros [? ?]|done]|].
  split; [done|]. by eexists.
Qed.

(** X9.  [index_lookup] throws exactly on an attribute name other than the four
    it knows, whatever the corpus and the value. *)
Theorem index_lookup_error_iff (corpus : Corpus) (attribute : string) (v : Z) :
  (∃ e, index_lookup corpus attribute v = inl e) ↔ known_attribute attribute = false.
Proof.
  exact (index_lookup_raises corpus attribute v).
Qed.

End IndexingSpec.

(** ** Laws of the planner and of the evaluator *)

Module EvaluatorLaws.
Import Search SearchSpec Sorting SortingSpec SetAlgebra SetAlgebraSpec PlannerSpec.
Import SetAlgebraLaws Indexing IndexingSpec Evaluator Invariants Reference.

Lemma intersection_keeps_sorted (A B : MatchSet) :
  matchset_sorted A → matchset_sorted B → matchset_sorted (intersection A B).
Proof.
  unfold matchset_sorted. intros HA HB. rewrite intersection_by_bits.
  destruct (complement A), (complement B); simpl;
    solve [ apply (pairwise_keep_sorted _ _ HA HB)
          | apply (pairwise_keep_sorted _ _ HB HA) ].
Qed.

Lemma plan_step_keeps_sorted (st : plan_state) (s : MatchSet) :
  Forall matchset_sorted (otherSets st) → matchset_sorted (dense_set st) →
  matchset_sorted s →
  Forall matchset_sorted (otherSets (plan_step st s)) ∧
  matchset_sorted (dense_set (plan_step st s)).
Proof.
  intros Ho Hd Hs. unfold plan_step.
  destruct (set s) eqn:E; simpl; split; auto.
  - destruct (dense_found st); [by apply intersection_keeps_sorted|done].
  - apply Forall_app. split; [done|]. by constructor.
  - apply Forall_app. split; [done|]. by constructor.
Qed.

Lemma plan_fold_keeps_sorted (sets : list MatchSet) (st : plan_state) :
  Forall matchset_sorted (otherSets st) → matchset_sorted (dense_set st) →
  Forall matchset_sorted sets →
  Forall matchset_sorted (otherSets (foldl plan_step st sets)) ∧
  matchset_sorted (dense_set (foldl plan_step st sets)).
Proof.
  revert st. induction sets as [|s sets IH]; intros st Ho Hd Hall; simpl; [done|].
  apply Forall_cons in Hall as [Hs Hall].
  destruct (plan_step_keeps_sorted st s Ho Hd Hs). by apply IH.
Qed.

Lemma foldl_intersection_keeps_sorted (sets : list MatchSet) (s0 : MatchSet) :
  matchset_sorted s0 → Forall matchset_sorted sets →
  matchset_sorted (foldl intersection s0 sets).
Proof.
  revert s0. induction sets as [|s sets IH]; intros s0 H0 Hall; simpl; [done|].
  apply Forall_cons in Hall as [Hs Hall].
  apply IH; [by apply intersection_keeps_sorted|done].
Qed.

(** The planner keeps the order of the vectors: on sets that are strictly
    ascending it returns a strictly ascending set. *)
Lemma intersect_with_plan_keeps_sorted {library : StdSort} (sets : list MatchSet) :
  Forall matchset_sorted sets → matchset_sorted (intersect_with_plan sets).
Proof.
  intros Hall. unfold intersect_with_plan.
  destruct (plan_fold_keeps_sorted sets (PlanState [] default_MatchSet false))
    as [Ho Hd]; [constructor|exact I|done|].
  set (st := foldl plan_step _ sets) in *.
  assert (Forall matchset_sorted
            (std_sort (λ a b, find_set_size a <? find_set_size b) (otherSets st)))
    as Hsorted by by rewrite std_sort_perm.
  destruct (std_sort _ _) as [|s0 others]; [done|].
  apply Forall_cons in Hsorted as [H0 Hothers].
  pose proof (foldl_intersection_keeps_sorted others s0 H0 Hothers).
  destruct (dense_found st); [by apply intersection_keeps_sorted|done].
Qed.

Lemma positions_with_sorted tokens field v :
  StronglySorted Z.lt (positions_with tokens field v).
Proof. apply filter_StronglySorted, seqZ_StronglySorted. Qed.

Lemma match_set_literal_built_sorted corpus literal shift s :
  match_set_literal (build_indices corpus) literal shift = inr s →
  matchset_sorted s.
Proof.
  unfold match_set_literal.
  destruct (known_attribute (attribute literal)) eqn:Hk.
  - rewrite (index_lookup_positions corpus _ _ Hk). simpl.
    destruct (is_equality literal); intros [= <-]; apply positions_with_sorted.
  - apply (index_lookup_raises (build_indices corpus) _ (value literal)) in Hk
      as [e ->]. discriminate.
Qed.

Lemma literal_sets_built_sorted corpus clause shift sets :
  literal_sets (build_indices corpus) clause shift = inr sets →
  Forall matchset_sorted sets.
Proof.
  revert sets. induction clause as [|l clause IH]; intros sets; simpl.
  - intros [= <-]. constructor.
  - destruct (match_set_literal _ l shift) as [e|s] eqn:Hl; [discriminate|].
    destruct (literal_sets _ clause shift) as [e|rest]; [discriminate|].
    intros [= <-]. constructor; [|by apply IH].
    by apply (match_set_literal_built_sorted corpus l shift).
Qed.

Lemma match_set_clause_built_sorted {library : StdSort} corpus clause shift s :
  match_set_clause (build_indices corpus) clause shift = inr s →
  matchset_sorted s.
Proof.
  unfold match_set_clause. destruct clause as [|l clause].
  - intros [= <-]. exact I.
  - destruct (literal_sets _ (l :: clause) shift) as [e|sets] eqn:Hs; [discriminate|].
    intros [= <-]. apply intersect_with_plan_keeps_sorted.
    by apply (literal_sets_built_sorted corpus (l :: clause) shift).
Qed.

Lemma clause_sets_built_sorted {library : StdSort} corpus query shift sets :
  clause_sets (build_indices corpus) query shift = inr sets →
  Forall matchset_sorted sets.
Proof.
  revert shift sets. induction query as [|c query IH]; intros shift sets; simpl.
  - intros [= <-]. constructor.
  - destruct (match_set_clause _ c shift) as [e|s] eqn:Hc; [discriminate|].
    destruct (clause_sets _ query (shift + 1)) as [e|rest] eqn:Hr; [discriminate|].
    intros [= <-]. constructor; [|by eapply IH].
    by apply (match_set_clause_built_sorted corpus c shift).
Qed.

Lemma match_set_built_sorted {library : StdSort} corpus query s :
  match_set (build_indices corpus) query = inr s → matchset_sorted s.
Proof.
  unfold match_set. destruct query as [|c query].
  - intros [= <-]. exact I.
  - destruct (clause_sets _ (c :: query) 0) as [e|sets] eqn:Hs; [discriminate|].
    pose proof (intersect_with_plan_keeps_sorted sets
                  (clause_sets_built_sorted corpus _ _ _ Hs)) as Hp.
    destruct (complement (intersect_with_plan sets)); intros [= <-]; [|done].
    by apply intersection_keeps_sorted.
Qed.

(** X10.  On a corpus whose indices were built by [build_indices], [match2]
    returns its matches by strictly ascending start position, whatever the
    query and whatever order [std::sort] gives to sets of equal size. *)
Theorem match2_positions_ascending {library : StdSort} (corpus : Corpus)
    (query : Query) (ms : list Match) :
  match2 (build_indices corpus) query = inr ms →
  StronglySorted Z.lt (List.map mpos ms).
Proof.
  unfold match2.
  destruct (match_set (build_indices corpus) query) as [e|s] eqn:Hs; [discriminate|].
  apply match_set_built_sorted in Hs. unfold matchset_sorted in Hs.
  destruct (set s) as [d|i|e]; simpl in Hs; intros [= <-];
    rewrite List.map_map; simpl; rewrite List.map_id;
    [apply seqZ_StronglySorted|done|done].
Qed.

Lemma match2_positions_ascending_witness :
  match2 (library := insertion_sort) (build_indices Fixtures.four_tokens)
    Examples.noun_then_any
    = inr [mkMatch 0 1 2; mkMatch 1 3 2] ∧
  StronglySorted Z.lt (List.map mpos [mkMatch 0 1 2; mkMatch 1 3 2]).
Proof.
  assert (match2 (library := insertion_sort) (build_indices Fixtures.four_tokens)
            Examples.noun_then_any
          = inr [mkMatch 0 1 2; mkMatch 1 3 2]) as H by (vm_compute; reflexivity).
  split; [exact H|].
  exact (match2_positions_ascending _ _ _ H).
Defined.

Import Parser.

Lemma raises_inl {E A} (e : E) : raises (inl e : E + A).
Proof. by exists e. Qed.

Lemma raises_inr {E A} (a : A) : ¬ raises (inr a : E + A).
Proof. by intros [e ?]. Qed.

Lemma match_set_literal_error corpus literal shift :
  raises (match_set_literal corpus literal shift) ↔ unknown_literal literal.
Proof.
  unfold unknown_literal.
  rewrite <- (index_lookup_raises corpus (attribute literal) (value literal)).
  unfold match_set_literal.
  destruct (index_lookup corpus (attribute literal) (value literal)) as [e|i].
  - split; intros _; [by exists e|apply raises_inl].
  - split.
    + destruct (is_equality literal); simpl; by intros ?%raises_inr.
    + by intros [e ?].
Qed.

Lemma literal_sets_error corpus clause shift :
  raises (literal_sets corpus clause shift) ↔ Exists unknown_literal clause.
Proof.
  induction clause as [|l clause IH]; simpl.
  - rewrite Exists_nil. split; [by intros ?%raises_inr|done].
  - rewrite Exists_cons, <- IH, <- (match_set_literal_error corpus l shift).
    destruct (match_set_literal corpus l shift) as [e|s].
    + split; intros _; [left|]; apply raises_inl.
    + destruct (literal_sets corpus clause shift) as [e|sets].
      * split; intros _; [right|]; apply raises_inl.
      * split; [by intros ?%raises_inr|by intros [?%raises_inr|?%raises_inr]].
Qed.

Lemma match_set_clause_error {library : StdSort} corpus clause shift :
  raises (match_set_clause corpus clause shift) ↔ Exists unknown_literal clause.
Proof.
  unfold match_set_clause. destruct clause as [|l clause].
  - rewrite Exists_nil. split; [by intros ?%raises_inr|done].
  - rewrite <- (literal_sets_error corpus (l :: clause) shift).
    destruct (literal_sets corpus (l :: clause) shift) as [e|sets].
    + split; intros _; apply raises_inl.
    + split; by intros ?%raises_inr.
Qed.

Lemma clause_sets_error {library : StdSort} corpus query shift :
  raises (clause_sets corpus query shift) ↔ Exists (Exists unknown_literal) query.
Proof.
  revert shift. induction query as [|c query IH]; intros shift; simpl.
  - rewrite Exists_nil. split; [by intros ?%raises_inr|done].
  - rewrite Exists_cons, <- (IH (shift + 1)), <- (match_set_clause_error corpus c shift).
    destruct (match_set_clause corpus c shift) as [e|s].
    + split; intros _; [left|]; apply raises_inl.
    + destruct (clause_sets corpus query (shift + 1)) as [e|sets].
      * split; intros _; [right|]; apply raises_inl.
      * split; [by intros ?%raises_inr|by intros [?%raises_inr|?%raises_inr]].
Qed.

Lemma match2_raises {library : StdSort} (corpus : Corpus) (query : Query) :
  (raises (match2 corpus query) ↔ Exists (Exists unknown_literal) query) ∧
  (raises (match_set corpus query) ↔ Exists (Exists unknown_literal) query).
Proof.
  assert (raises (match_set corpus query) ↔ Exists (Exists unknown_literal) query)
    as Hset.
  { unfold match_set. destruct query as [|c query].
    - rewrite Exists_nil. split; [by intros ?%raises_inr|done].
    - rewrite <- (clause_sets_error corpus (c :: query) 0).
      destruct (clause_sets corpus (c :: query) 0) as [e|sets].
      + split; intros _; apply raises_inl.
      + destruct (complement _); split; by intros ?%raises_inr. }
  split; [|done]. rewrite <- Hset. unfold match2.
  destruct (match_set corpus query) as [e|s].
  - split; intros _; apply raises_inl.
  - destruct (set s); split; by intros ?%raises_inr.
Qed.

(** X11.  [match_set] and [match2] throw exactly when some literal of the query
    names an attribute other than word, c5, lemma and pos; the corpus and
    the values play no part, and the empty query never throws. *)
Theorem match2_error_iff {library : StdSort} (corpus : Corpus) (query : Query) :
  (raises (match2 corpus query) ↔ Exists (Exists unknown_literal) query) ∧
  (raises (match_set corpus query) ↔ Exists (Exists unknown_literal) query).
Proof.
  exact (match2_raises corpus query).
Qed.

Lemma clause_sets_empty_clauses {library : StdSort} corpus n shift :
  clause_sets corpus (replicate n []) shift = inr (replicate n (whole_corpus corpus)).
Proof.
  revert shift. induction n as [|n IH]; intros shift; simpl; [done|].
  by rewrite IH.
Qed.

Lemma intersection_whole_corpus corpus :
  intersection (whole_corpus corpus) (whole_corpus corpus) = whole_corpus corpus.
Proof.
  unfold whole_corpus, intersection.
  cbn [complement andb set intersection_variant]. unfold intersection_DD.
  by rewrite Z.max_id, Z.min_id.
Qed.

Lemma plan_fold_whole_corpus corpus n :
  foldl plan_step (PlanState [] (whole_corpus corpus) true)
    (replicate n (whole_corpus corpus))
  = PlanState [] (whole_corpus corpus) true.
Proof.
  induction n as [|n IH]; simpl; [done|].
  unfold plan_step at 2; simpl. by rewrite intersection_whole_corpus.
Qed.

Lemma intersect_with_plan_whole_corpus {library : StdSort} corpus n :
  intersect_with_plan (replicate (S n) (whole_corpus corpus)) = whole_corpus corpus.
Proof.
  assert (foldl plan_step (PlanState [] default_MatchSet false)
            (replicate (S n) (whole_corpus corpus))
          = PlanState [] (whole_corpus corpus) true) as H.
  { cbn [replicate foldl]. apply plan_fold_whole_corpus. }
  pose proof (intersect_with_plan_none (replicate (S n) (whole_corpus corpus))) as Hn.
  cbv zeta in Hn. rewrite H in Hn. by apply Hn.
Qed.

(** X12.  A query made of empty clauses only, however many, is answered by the
    interval of the whole corpus: [match2] returns one match per token, each
    with [len] 1. *)
Theorem match2_only_empty_clauses {library : StdSort} (corpus : Corpus) (n : nat) :
  match_set corpus (replicate (S n) []) = inr (whole_corpus corpus) ∧
  match2 corpus (replicate (S n) []) =
  inr (List.map (λ i, mkMatch (sentence_of corpus i) i 1)
         (seqZ 0 (Z.of_nat (List.length (tokens corpus))))).
Proof.
  assert (match_set corpus (replicate (S n) []) = inr (whole_corpus corpus)) as Hset.
  { unfold match_set. cbn [replicate].
    change ([] :: replicate n []) with (replicate (S n) ([] : Clause)).
    rewrite clause_sets_empty_clauses.
    by rewrite intersect_with_plan_whole_corpus. }
  split; [done|]. unfold match2. rewrite Hset. simpl. do 3 f_equal. lia.
Qed.

(** X13.  The sentence attribution of [match2] and [match_single]: on a strictly
    ascending sentence directory whose first entry is not above [p], the
    sentence index [k] is in range, [S[k] ≤ p], and [p] is below the next
    entry when there is one; with no entry at or below [p] the index is -1. *)
Theorem sentence_of_spec (corpus : Corpus) (p : Z) :
  StronglySorted Z.lt (sentences corpus) →
  (∀ s0, sentences corpus !! 0%nat = Some s0 → s0 ≤ p →
     ∃ start,
       0 ≤ sentence_of corpus p ∧
       sentences corpus !! Z.to_nat (sentence_of corpus p) = Some start ∧
       start ≤ p ∧
       ∀ next, sentences corpus !! S (Z.to_nat (sentence_of corpus p)) = Some next →
               p < next) ∧
  ((∀ s0, sentences corpus !! 0%nat = Some s0 → p < s0) →
   sentence_of corpus p = -1).
Proof.
  intros Hs. unfold sentence_of, upper_bound.
  set (S_ := sentences corpus) in *.
  destruct (bisect_partition_point (λ x, negb (p <? x)) S_
              (List.length S_) 0 (List.length S_))
    as (Hr & Hlow & Hhigh); [lia|lia| |lia|lia|].
  { intros i j Hij Hj. apply negb_true_iff, Z.ltb_ge in Hj.
    apply negb_true_iff, Z.ltb_ge.
    pose proof (sorted_nth_le S_ i j (StronglySorted_lt_le _ Hs) Hij). lia. }
  set (r := bisect _ _ _ _ _) in *.
  split.
  - intros s0 H0 Hle.
    assert (0 < r)%nat as Hpos.
    { destruct r; [|lia]. exfalso.
      pose proof (lookup_lt_Some _ _ _ H0) as Hlen.
      specialize (Hhigh 0%nat ltac:(lia)).
      rewrite (nth_lookup_Some _ _ 0 _ H0) in Hhigh.
      apply negb_false_iff, Z.ltb_lt in Hhigh. lia. }
    replace (Z.to_nat (Z.of_nat r - 1)) with (r - 1)%nat by lia.
    destruct (lookup_lt_is_Some_2 S_ (r - 1)) as [start Hstart]; [lia|].
    exists start. split; [lia|]. split; [done|]. split.
    + specialize (Hlow (r - 1)%nat ltac:(lia)).
      rewrite (nth_lookup_Some _ _ 0 _ Hstart) in Hlow.
      by apply negb_true_iff, Z.ltb_ge in Hlow.
    + intros next Hnext. replace (S (r - 1)) with r in Hnext by lia.
      pose proof (lookup_lt_Some _ _ _ Hnext) as Hlen.
      specialize (Hhigh r ltac:(lia)).
      rewrite (nth_lookup_Some _ _ 0 _ Hnext) in Hhigh.
      by apply negb_false_iff, Z.ltb_lt in Hhigh.
  - intros Habove. destruct r as [|r]; [done|]. exfalso.
    destruct (lookup_lt_is_Some_2 S_ 0) as [s0 H0]; [lia|].
    specialize (Hlow 0%nat ltac:(lia)).
    rewrite (nth_lookup_Some _ _ 0 _ H0) in Hlow.
    apply negb_true_iff, Z.ltb_ge in Hlow. specialize (Habove s0 H0). lia.
Qed.

Lemma sentence_of_spec_witness :
  StronglySorted Z.lt (sentences Fixtures.four_tokens) ∧
  ∃ start,
    0 ≤ sentence_of Fixtures.four_tokens 3 ∧
    sentences Fixtures.four_tokens
      !! Z.to_nat (sentence_of Fixtures.four_tokens 3) = Some start ∧
    start ≤ 3 ∧
    ∀ next,
      sentences Fixtures.four_tokens
        !! S (Z.to_nat (sentence_of Fixtures.four_tokens 3)) = Some next →
      3 < next.
Proof.
  assert (StronglySorted Z.lt (sentences Fixtures.four_tokens)) as Hs
    by (repeat constructor).
  split; [exact Hs|].
  apply (proj1 (sentence_of_spec Fixtures.four_tokens 3 Hs) 0);
    [reflexivity|lia].
Defined.

(** X14.  [match_single] on a value of the dictionary is [match2] on the query of
    one clause with one equality literal, exceptions included; on a value
    that is not in the dictionary it returns no match, without looking at
    the attribute name. *)
Theorem match_single_is_match2 {library : StdSort} (corpus : Corpus) (attr str : string) :
  (∀ id, string2index corpus !! str = Some id →
     SingleLiteral.match_single corpus attr str
       = match2 corpus [[mkLiteral attr id true]]) ∧
  (string2index corpus !! str = None →
     SingleLiteral.match_single corpus attr str = inr []).
Proof.
  unfold SingleLiteral.match_single. split.
  - intros id ->. unfold match2, match_set. cbn [clause_sets].
    rewrite match_set_clause_single.
    unfold match_set_literal. cbn [attribute value is_equality negb].
    destruct (index_lookup corpus attr id) as [e|i]; [reflexivity|].
    by rewrite intersect_with_plan_singleton.
  - by intros ->.
Qed.

Lemma match_single_is_match2_witness :
  let corpus := build_indices Fixtures.four_tokens in
  string2index corpus !! "NN1"%string = Some 4 ∧
  SingleLiteral.match_single corpus "c5" "NN1"
    = match2 (library := insertion_sort) corpus [[mkLiteral "c5" 4 true]] ∧
  SingleLiteral.match_single corpus "c5" "NN1" = inr [mkMatch 0 1 1; mkMatch 1 3 1].
Proof.
  intros corpus.
  assert (string2index corpus !! "NN1"%string = Some 4) as H
    by (vm_compute; reflexivity).
  split; [exact H|]. split.
  - exact (proj1 (match_single_is_match2 (library := insertion_sort) corpus "c5" "NN1")
             4 H).
  - vm_compute. reflexivity.
Defined.

Lemma literal_holds_field (t : Token) (attr : string) (v : Z) (eq : bool) :
  literal_holds t (mkLiteral attr v eq) =
  if eq then attribute_field attr t =? v else negb (attribute_field attr t =? v).
Proof. reflexivity. Qed.

(** X15.  A query of one clause with one literal, on a corpus whose indices were
    built by [build_indices]: [match2] returns, in ascending order and with
    [len] 1, exactly the positions whose token satisfies the literal, be it
    an equality or an inequality. *)
Theorem match2_single_literal_built {library : StdSort} (corpus : Corpus)
    (attr : string) (v : Z) (eq : bool) :
  known_attribute attr = true →
  match2 (build_indices corpus) [[mkLiteral attr v eq]] =
  inr (List.map (λ i, mkMatch (sentence_of (build_indices corpus) i) i 1)
         (List.filter
            (λ p, literal_holds (token_at (tokens corpus) p) (mkLiteral attr v eq))
            (seqZ 0 (Z.of_nat (List.length (tokens corpus)))))).
Proof.
  intros Hk. unfold match2, match_set. cbn [clause_sets].
  unfold match_set_clause. cbn [literal_sets]. unfold match_set_literal.
  cbn [attribute value is_equality].
  rewrite (index_lookup_positions corpus attr v Hk). cbn [ielems].
  destruct eq; cbn [negb]; rewrite !intersect_with_plan_singleton; cbn [complement set].
  - cbn [ielems]. do 2 f_equal.
  - rewrite intersection_by_bits. cbn [complement set difference_variant elems].
    pose proof (positions_with_sorted (tokens corpus) (attribute_field attr) v) as Hs.
    apply StronglySorted_lt_le in Hs.
    destruct (diff_dense_left_filter (entire_corp (build_indices corpus))
                (positions_with (tokens corpus) (attribute_field attr) v) 0 Hs)
      as [-> _].
    cbn [first last entire_corp build_indices tokens List.length].
    replace (Z.of_nat (List.length (tokens corpus)) - 1 - 0 + 1)
      with (Z.of_nat (List.length (tokens corpus))) by lia.
    do 2 f_equal. apply filter_agree. intros q Hq.
    rewrite literal_holds_field. f_equal.
    unfold positions_with. replace (q + 0) with q by lia.
    destruct (Z.eqb_spec (attribute_field attr (token_at (tokens corpus) q)) v)
      as [Heq|Hne].
    + apply bool_decide_eq_true, elem_of_list_filter. split; [done|].
      by apply Z.eqb_eq.
    + apply bool_decide_eq_false. intros [_ H]%elem_of_list_filter.
      by apply Z.eqb_eq in H.
Qed.

Lemma match2_single_literal_built_witness :
  known_attribute "c5" = true ∧
  match2 (library := insertion_sort) (build_indices Fixtures.four_tokens)
    [[mkLiteral "c5" 4 false]] =
  inr (List.map
         (λ i, mkMatch (sentence_of (build_indices Fixtures.four_tokens) i) i 1)
         (List.filter
            (λ p, literal_holds (token_at (tokens Fixtures.four_tokens) p)
                    (mkLiteral "c5" 4 false))
            (seqZ 0 (Z.of_nat (List.length (tokens Fixtures.four_tokens)))))).
Proof.
  split; [reflexivity|].
  exact (match2_single_literal_built Fixtures.four_tokens "c5" 4 false eq_refl).
Defined.

(** *** One clause of equalities *)

Lemma intersection_plain (A B : MatchSet) :
  plain A → plain B →
  plain (intersection A B) ∧
  ∀ x, x ∈ members (intersection A B) ↔ x ∈ members A ∧ x ∈ members B.
Proof.
  intros (HcA & HsA & HA) (HcB & HsB & HB).
  rewrite intersection_by_bits, HcA, HcB.
  destruct A as [[dA|[X sx]|[X]] cA], B as [[dB|[Y sy]|[Y]] cB];
    unfold members in *; simpl in *; try done; subst;
    unfold intersection_II, intersection_IE, intersection_EI, intersection_IE,
      intersection_EE; simpl.
  - rewrite (three_way_unshifted X Y HA HB). unfold plain, members; simpl.
    split; [|apply elem_of_shifted_intersection_0].
    repeat split. by apply shifted_intersection_sorted.
  - rewrite (three_way_unshifted X Y HA HB). unfold plain, members; simpl.
    split; [|apply elem_of_shifted_intersection_0].
    repeat split. by apply shifted_intersection_sorted.
  - rewrite (three_way_unshifted Y X HB HA). unfold plain, members; simpl.
    split; [|intros x; rewrite elem_of_shifted_intersection_0; tauto].
    repeat split. by apply shifted_intersection_sorted.
  - rewrite (three_way_unshifted X Y HA HB). unfold plain, members; simpl.
    split; [|apply elem_of_shifted_intersection_0].
    repeat split. by apply shifted_intersection_sorted.
Qed.

Lemma foldl_intersection_plain (others : list MatchSet) : ∀ s0,
  plain s0 → Forall plain others →
  plain (foldl intersection s0 others) ∧
  ∀ x, x ∈ members (foldl intersection s0 others) ↔
       x ∈ members s0 ∧ Forall (λ s, x ∈ members s) others.
Proof.
  induction others as [|s others IH]; intros s0 H0 Hall; simpl.
  - split; [done|]. intros x. rewrite Forall_nil. tauto.
  - apply Forall_cons in Hall as [Hs Hall].
    destruct (intersection_plain s0 s H0 Hs) as [Hp Hm].
    destruct (IH _ Hp Hall) as [Hp' Hm']. split; [done|].
    intros x. rewrite Hm', Hm, Forall_cons. tauto.
Qed.

Lemma plan_fold_plain (sets : list MatchSet) : ∀ st,
  Forall plain sets →
  foldl plan_step st sets =
  PlanState (otherSets st ++ sets) (dense_set st) (dense_found st).
Proof.
  induction sets as [|s sets IH]; intros st Hall; simpl.
  - rewrite app_nil_r. by destruct st.
  - apply Forall_cons in Hall as [(_ & Hs & _) Hall]. rewrite (IH _ Hall).
    unfold plan_step. destruct (set s); [done|..]; simpl; by rewrite <- app_assoc.
Qed.

(** On sets without complement and shift the planner returns the sorted
    list of the elements common to all of them. *)
Lemma intersect_with_plan_plain {library : StdSort} (sets : list MatchSet) :
  sets ≠ [] → Forall plain sets →
  plain (intersect_with_plan sets) ∧
  ∀ x, x ∈ members (intersect_with_plan sets) ↔ Forall (λ s, x ∈ members s) sets.
Proof.
  intros Hne Hall. unfold intersect_with_plan.
  rewrite (plan_fold_plain sets _ Hall). cbn [otherSets dense_found dense_set app].
  pose proof (std_sort_perm (λ a b, find_set_size a <? find_set_size b) sets)
    as Hperm.
  destruct (std_sort _ sets) as [|s0 others].
  - apply Permutation_nil_l in Hperm. congruence.
  - assert (Forall plain (s0 :: others)) as Hall' by by rewrite Hperm.
    apply Forall_cons in Hall' as [H0 Hothers].
    destruct (foldl_intersection_plain others s0 H0 Hothers) as [Hp Hm].
    split; [done|]. intros x.
    rewrite Hm, <- (Forall_cons (λ s, x ∈ members s)). by rewrite Hperm.
Qed.

Lemma literal_sets_positive corpus (clause : Clause) :
  Forall positive_literal clause →
  ∃ sets, literal_sets (build_indices corpus) clause 0 = inr sets ∧
          Forall plain sets ∧
          (clause ≠ [] → sets ≠ []) ∧
          ∀ x, Forall (λ s, x ∈ members s) sets ↔
               Forall (λ l, x ∈ positions_with (tokens corpus)
                                    (attribute_field (attribute l)) (value l))
                 clause.
Proof.
  induction 1 as [|l clause [Hk He] Hall (sets & Hsets & Hplain & _ & Hm)].
  - exists []. repeat split; try done; by constructor.
  - cbn [literal_sets]. unfold match_set_literal.
    rewrite (index_lookup_positions corpus _ _ Hk), He, Hsets. cbn [negb ielems].
    eexists. split; [reflexivity|]. split; [|split; [done|]].
    + constructor; [|done]. repeat split. apply positions_with_sorted.
    + intros x. by rewrite !Forall_cons, Hm.
Qed.

Lemma elem_of_positions_with tokens field v x :
  x ∈ positions_with tokens field v ↔
  x ∈ seqZ 0 (Z.of_nat (List.length tokens)) ∧ field (token_at tokens x) = v.
Proof. unfold positions_with. by rewrite elem_of_list_filter, Z.eqb_eq. Qed.

Lemma literal_holds_positive (t : Token) (l : Literal) :
  is_equality l = true →
  literal_holds t l = true ↔ attribute_field (attribute l) t = value l.
Proof. intros He. unfold literal_holds, attribute_field. rewrite He. apply Z.eqb_eq. Qed.

(** X24.  A query of one clause made of one or more equality literals on the
    four attributes, on a corpus whose indices were built by
    [build_indices]: whatever order [std::sort] gives to sets of equal size
    and whichever algorithms the size rule selects, [match2] returns, in
    ascending order and with [len] 1, exactly the positions whose token
    satisfies every literal of the clause. *)
Theorem match2_positive_clause_built {library : StdSort} (corpus : Corpus)
    (clause : Clause) :
  clause ≠ [] → Forall positive_literal clause →
  match2 (build_indices corpus) [clause] =
  inr (List.map (λ i, mkMatch (sentence_of (build_indices corpus) i) i 1)
         (List.filter
            (λ p, forallb (literal_holds (token_at (tokens corpus) p)) clause)
            (seqZ 0 (Z.of_nat (List.length (tokens corpus)))))).
Proof.
  intros Hne Hpos.
  destruct (literal_sets_positive corpus clause Hpos)
    as (sets & Hsets & Hplain & Hne' & Hm).
  destruct (intersect_with_plan_plain sets (Hne' Hne) Hplain) as [Hp Hmem].
  unfold match2, match_set. cbn [clause_sets]. unfold match_set_clause.
  destruct clause as [|l clause]; [done|]. rewrite Hsets.
  rewrite intersect_with_plan_singleton.
  destruct Hp as (Hc & Hshape & Hsorted). rewrite Hc.
  assert (members (intersect_with_plan sets) =
          List.filter
            (λ p, forallb (literal_holds (token_at (tokens corpus) p)) (l :: clause))
            (seqZ 0 (Z.of_nat (List.length (tokens corpus))))) as Heq.
  { apply strictly_sorted_ext;
      [done|apply filter_StronglySorted, seqZ_StronglySorted|].
    intros x. rewrite Hmem, Hm, elem_of_list_filter, forallb_forall.
    rewrite Forall_forall. split.
    - intros H. split.
      + assert (l ∈ l :: clause) as Hl by left.
        by apply H, elem_of_positions_with in Hl as [? _].
      + intros l' Hl'%list_elem_of_In.
        rewrite Forall_forall in Hpos. destruct (Hpos l' Hl') as [_ He].
        apply (literal_holds_positive _ _ He).
        by apply H, elem_of_positions_with in Hl' as [_ ?].
    - intros [Hx H] l' Hl'. apply elem_of_positions_with. split; [done|].
      rewrite Forall_forall in Hpos. destruct (Hpos l' Hl') as [_ He].
      apply (literal_holds_positive _ _ He), H. by apply list_elem_of_In. }
  unfold members in Heq.
  destruct (set (intersect_with_plan sets)) as [d|i|e]; [done|..];
    cbn [List.length Z.of_nat]; by rewrite Heq.
Qed.

Lemma match2_positive_clause_built_witness :
  let clause := [mkLiteral "c5" 4 true; mkLiteral "pos" 5 true] in
  clause ≠ [] ∧ Forall positive_literal clause ∧
  match2 (library := insertion_sort) (build_indices Fixtures.four_tokens) [clause] =
  inr (List.map
         (λ i, mkMatch (sentence_of (build_indices Fixtures.four_tokens) i) i 1)
         (List.filter
            (λ p, forallb (literal_holds (token_at (tokens Fixtures.four_tokens) p))
                    clause)
            (seqZ 0 (Z.of_nat (List.length (tokens Fixtures.four_tokens)))))).
Proof.
  intros clause.
  assert (clause ≠ []) as Hne by discriminate.
  assert (Forall positive_literal clause) as Hpos
    by (repeat constructor).
  split; [exact Hne|]. split; [exact Hpos|].
  exact (match2_positive_clause_built Fixtures.four_tokens clause Hne Hpos).
Defined.

(** *** The old matcher *)

Lemma compare_literal_token_known token literal :
  known_attribute (attribute literal) = true →
  compare_literal_token token literal = inr (literal_holds token literal).
Proof.
  unfold known_attribute, compare_literal_token, literal_holds.
  destruct (String.eqb (attribute literal) "word"); [done|].
  destruct (String.eqb (attribute literal) "c5"); [done|].
  destruct (String.eqb (attribute literal) "lemma"); [done|].
  destruct (String.eqb (attribute literal) "pos"); [done|discriminate].
Qed.

Lemma compare_literal_token_unknown token literal :
  unknown_literal literal →
  compare_literal_token token literal = inl (UnknownAttribute (attribute literal)).
Proof.
  unfold unknown_literal, known_attribute, compare_literal_token.
  destruct (String.eqb (attribute literal) "word"); [discriminate|].
  destruct (String.eqb (attribute literal) "c5"); [discriminate|].
  destruct (String.eqb (attribute literal) "lemma"); [discriminate|].
  destruct (String.eqb (attribute literal) "pos"); [discriminate|done].
Qed.

Lemma count_matching_known token clause :
  Forall (λ l, known_attribute (attribute l) = true) clause →
  count_matching token clause
    = inr (List.length (List.filter (literal_holds token) clause)).
Proof.
  induction 1 as [|l clause Hl _ IH]; simpl; [done|].
  rewrite (compare_literal_token_known token l Hl), IH.
  by destruct (literal_holds token l).
Qed.

Lemma filter_length_full {A} (f : A → bool) (l : list A) :
  (List.length (List.filter f l) =? List.length l)%nat = forallb f l.
Proof.
  induction l as [|x l IH]; simpl; [done|].
  destruct (f x); simpl; [exact IH|].
  pose proof (List.filter_length_le f l). apply Nat.eqb_neq. lia.
Qed.

(** X16.  [compare_token_clause] holds when every literal of the clause holds of
    the token, and for the empty clause; it throws when some literal names
    an unknown attribute, even if another literal already fails. *)
Theorem compare_token_clause_all (token : Token) (clause : Clause) :
  (Forall (λ l, known_attribute (attribute l) = true) clause →
   compare_token_clause token clause = inr (forallb (literal_holds token) clause)) ∧
  (Exists unknown_literal clause → raises (compare_token_clause token clause)).
Proof.
  split.
  - intros Hk. unfold compare_token_clause. destruct clause as [|l clause]; [done|].
    rewrite (count_matching_known token _ Hk). f_equal. apply filter_length_full.
  - intros Hex. unfold compare_token_clause.
    destruct clause as [|l clause]; [by apply Exists_nil in Hex|].
    assert (raises (count_matching token (l :: clause))) as [e ->]; [|apply raises_inl].
    induction Hex as [l' clause' Hl|l' clause' Hex IH]; simpl.
    + rewrite (compare_literal_token_unknown token l' Hl). apply raises_inl.
    + destruct (compare_literal_token token l') as [e|hit]; [apply raises_inl|].
      destruct IH as [e ->]. apply raises_inl.
Qed.

Lemma compare_token_clause_all_witness :
  Forall (λ l, known_attribute (attribute l) = true)
    [mkLiteral "word" 3 true; mkLiteral "pos" 2 false] ∧
  compare_token_clause (mkToken 3 4 3 5)
    [mkLiteral "word" 3 true; mkLiteral "pos" 2 false] = inr true.
Proof.
  assert (Forall (λ l, known_attribute (attribute l) = true)
            [mkLiteral "word" 3 true; mkLiteral "pos" 2 false]) as H
    by (repeat constructor).
  split; [exact H|].
  exact (proj1 (compare_token_clause_all (mkToken 3 4 3 5) _) H).
Defined.

Lemma all_clauses_match_bound corpus i j end_ query :
  all_clauses_match corpus i j end_ query = inr true →
  query = [] ∨ i + j + Z.of_nat (List.length query) - 1 < end_.
Proof.
  revert j. induction query as [|c query IH]; intros j; [by left|].
  cbn [all_clauses_match].
  destruct (Z.geb_spec (i + j) end_) as [|Hlt]; [discriminate|].
  destruct (compare_token_clause _ c) as [e|[|]]; [discriminate| |discriminate].
  intros [->|Hb]%IH; right; simpl List.length; lia.
Qed.

Lemma match_sentence_spec corpus query k starts end_ ms :
  match_sentence corpus query k starts end_ = inr ms →
  Forall (λ m, sentence m = k ∧ len m = Z.of_nat (List.length query) ∧
               mpos m ∈ starts ∧
               (query = [] ∨ mpos m + Z.of_nat (List.length query) - 1 < end_)) ms.
Proof.
  revert ms. induction starts as [|i starts IH]; intros ms; cbn [match_sentence].
  - intros [= <-]. constructor.
  - destruct (all_clauses_match corpus i 0 end_ query) as [e|hit] eqn:Hhit;
      [discriminate|].
    destruct (match_sentence corpus query k starts end_) as [e|rest]; [discriminate|].
    specialize (IH rest eq_refl).
    assert (Forall (λ m, sentence m = k ∧ len m = Z.of_nat (List.length query) ∧
                         mpos m ∈ i :: starts ∧
                         (query = [] ∨
                          mpos m + Z.of_nat (List.length query) - 1 < end_)) rest)
      as Hrest.
    { eapply Forall_impl; [exact IH|]. intros m (? & ? & ? & ?).
      repeat split; auto. by right. }
    destruct hit; intros [= <-]; [|done].
    constructor; [|done]. simpl. repeat split; [left|].
    apply all_clauses_match_bound in Hhit as [->|Hb]; [by left|right; lia].
Qed.

Lemma match_sentences_spec corpus query rest (n : nat) ms :
  drop n (sentences corpus) = rest →
  match_sentences corpus query (Z.of_nat n) rest = inr ms →
  Forall (λ m, len m = Z.of_nat (List.length query) ∧
               span_in_sentence corpus m = true) ms.
Proof.
  revert n ms. induction rest as [|start rest IH]; intros n ms Hdrop;
    cbn [match_sentences].
  - intros [= <-]. constructor.
  - set (end_ := match rest with
                 | next :: _ => next
                 | [] => Z.of_nat (List.length (tokens corpus))
                 end).
    destruct (match_sentence corpus query (Z.of_nat n)
                (seqZ start (end_ - start)) end_) as [e|here] eqn:Hhere;
      [discriminate|].
    assert (sentences corpus !! n = Some start) as Hn.
    { rewrite <- (Nat.add_0_r n), <- lookup_drop, Hdrop. done. }
    assert (drop (S n) (sentences corpus) = rest) as Hdrop'.
    { replace (S n) with (n + 1)%nat by lia.
      rewrite <- drop_drop, Hdrop. done. }
    destruct (match_sentences corpus query (Z.of_nat n + 1) rest) as [e|later] eqn:Hl;
      [discriminate|].
    intros [= <-]. apply Forall_app. split.
    + apply match_sentence_spec in Hhere.
      eapply Forall_impl; [exact Hhere|].
      intros [k p L]; simpl. intros (-> & -> & Hp & Hb). split; [done|].
      apply elem_of_seqZ in Hp. unfold span_in_sentence; simpl.
      rewrite Nat2Z.id, Hn.
      assert (match sentences corpus !! S n with
              | Some next => next
              | None => Z.of_nat (List.length (tokens corpus))
              end = end_) as ->.
      { unfold end_. destruct rest as [|next rest'].
        - rewrite lookup_ge_None_2; [done|].
          apply (f_equal List.length) in Hdrop'. rewrite length_drop in Hdrop'.
          simpl in Hdrop'. lia.
        - rewrite <- (Nat.add_0_r (S n)), <- lookup_drop, Hdrop'. done. }
      apply andb_true_iff. split; [apply Z.leb_le; lia|].
      apply andb_true_iff. split; [apply Z.leb_le; lia|].
      apply Z.ltb_lt. destruct Hb as [->|Hb]; simpl; lia.
    + apply (IH (S n)); [done|]. by rewrite Nat2Z.inj_succ, <- Z.add_1_r.
Qed.

(** X17.  Every match that the old matcher returns carries the query length and
    lies within its sentence: [S[k] ≤ p] and [p + L - 1] is below the next
    sentence start, or below the corpus length in the last sentence. *)
Theorem match_old_in_sentence (corpus : Corpus) (query : Query) (ms : list Match) :
  match_old corpus query = inr ms →
  Forall (λ m, len m = Z.of_nat (List.length query) ∧
               span_in_sentence corpus m = true) ms.
Proof.
  apply (match_sentences_spec corpus query (sentences corpus) 0). done.
Qed.

Lemma match_old_in_sentence_witness :
  match_old Fixtures.four_tokens [[mkLiteral "c5" 1 true]; [mkLiteral "c5" 4 true]]
    = inr [mkMatch 0 0 2; mkMatch 1 2 2] ∧
  Forall (λ m, len m = Z.of_nat 2 ∧ span_in_sentence Fixtures.four_tokens m = true)
    [mkMatch 0 0 2; mkMatch 1 2 2].
Proof.
  assert (match_old Fixtures.four_tokens
            [[mkLiteral "c5" 1 true]; [mkLiteral "c5" 4 true]]
          = inr [mkMatch 0 0 2; mkMatch 1 2 2]) as H by (vm_compute; reflexivity).
  split; [exact H|].
  exact (match_old_in_sentence _ _ _ H).
Defined.

End EvaluatorLaws.

(** ** The query parser *)

Module QueryParserLaws.
Import Parser ParserSpec QueryParser Invariants Evaluator EvaluatorLaws.
Import Sorting SortingSpec.

Lemma process_literal_value corpus literal pos op lit :
  process_literal corpus literal pos op = inr lit →
  ∃ s, string2index corpus !! s = Some (value lit).
Proof.
  unfold process_literal.
  destruct (trim_and_validate_lit _) as [e|v]; [discriminate|].
  destruct (string2index corpus !! v) as [index|] eqn:Hv; [|discriminate].
  intros [= <-]. by exists v.
Qed.

Lemma parse_literal_ok corpus literal lit :
  parse_literal corpus literal = inr lit → literal_ok corpus lit.
Proof.
  unfold parse_literal, literal_ok, known_attribute. cbv zeta.
  match goal with
  | |- context [match ?p with inl _ => _ | inr _ => _ end] =>
      destruct p as [e|l] eqn:Hp
  end; [discriminate|].
  assert (∃ s, string2index corpus !! s = Some (value l)) as Hv.
  { destruct (find "!=" literal); [by eapply process_literal_value|].
    destruct (find "=" literal); [by eapply process_literal_value|discriminate]. }
  destruct (String.eqb (attribute l) "word") eqn:E1,
    (String.eqb (attribute l) "c5") eqn:E2,
    (String.eqb (attribute l) "lemma") eqn:E3,
    (String.eqb (attribute l) "pos") eqn:E4;
    simpl; intros [= <-]; rewrite E1, E2, E3, E4; by split.
Qed.

Lemma parse_clause_loop_ok fuel corpus stream acc literals :
  Forall (literal_ok corpus) acc →
  parse_clause_loop fuel corpus stream acc = inr literals →
  Forall (literal_ok corpus) literals.
Proof.
  revert stream acc. induction fuel as [|fuel IH]; intros stream acc Hacc; simpl.
  - by intros [= <-].
  - destruct (getline " " stream) as [[literal unread]|]; [|by intros [= <-]].
    destruct (parse_literal corpus literal) as [e|lit] eqn:Hl; [discriminate|].
    apply IH. apply Forall_app. split; [done|].
    constructor; [|done]. by eapply parse_literal_ok.
Qed.

Lemma parse_clauses_ok clauses corpus query :
  parse_clauses clauses corpus = inr query →
  Forall (Forall (literal_ok corpus)) query ∧
  List.length query = List.length clauses.
Proof.
  revert query. induction clauses as [|c clauses IH]; intros query; simpl.
  - intros [= <-]. by split.
  - destruct (parse_clause c corpus) as [e|cl] eqn:Hc; [discriminate|].
    destruct (parse_clauses clauses corpus) as [e|q]; [discriminate|].
    intros [= <-]. destruct (IH q eq_refl) as [Hq Hlen]. split.
    + constructor; [|done]. by eapply (parse_clause_loop_ok _ corpus c []).
    + simpl. by rewrite Hlen.
Qed.

(** X18.  A query that [parse_query] returns is never empty, has one clause per
    bracketed clause of the text, names only the four attributes and only
    values of the dictionary, and is answered by [match2] without an
    exception. *)
Theorem parse_query_sound {library : StdSort} (text : string) (corpus : Corpus)
    (query : Query) :
  parse_query text corpus = inr query →
  query ≠ [] ∧
  (∃ clauses, split_clauses text = inr clauses ∧
              List.length query = List.length clauses) ∧
  Forall (Forall (literal_ok corpus)) query ∧
  ∃ ms, match2 corpus query = inr ms.
Proof.
  unfold parse_query.
  destruct (split_clauses text) as [e|clauses]; [discriminate|].
  destruct (parse_clauses clauses corpus) as [e|q] eqn:Hq; [discriminate|].
  destruct (parse_clauses_ok _ _ _ Hq) as [Hok Hlen].
  destruct q as [|c q]; [discriminate|]. intros [= <-].
  split; [done|]. split; [by exists clauses|]. split; [done|].
  destruct (match2 corpus (c :: q)) as [e|ms] eqn:Hm; [|by exists ms].
  exfalso.
  assert (raises (match2 corpus (c :: q))) as Hr by (rewrite Hm; apply raises_inl).
  apply (proj1 (match2_raises corpus (c :: q))) in Hr.
  apply Exists_exists in Hr as (cl & Hcl & Hex).
  apply Exists_exists in Hex as (l & Hl & Hu).
  rewrite Forall_forall in Hok. specialize (Hok cl Hcl).
  rewrite Forall_forall in Hok. destruct (Hok l Hl) as [Hk _].
  unfold unknown_literal in Hu. congruence.
Qed.

Lemma parse_query_sound_witness :
  let q := String quote "" in
  let text := "[c5=" +:+ q +:+ "NN1" +:+ q +:+ "] []" in
  parse_query text Fixtures.four_tokens = inr Examples.noun_then_any ∧
  ∃ ms, match2 (library := insertion_sort) Fixtures.four_tokens
          Examples.noun_then_any = inr ms.
Proof.
  intros q text.
  assert (parse_query text Fixtures.four_tokens = inr Examples.noun_then_any)
    as H by (vm_compute; reflexivity).
  split; [exact H|].
  exact (proj2 (proj2 (proj2 (parse_query_sound _ _ _ H)))).
Defined.

Lemma parse_clauses_error clauses corpus e :
  parse_clauses clauses corpus = inl e →
  e ≠ EmptyQuery ∧ ∀ se, e ≠ SplitError se.
Proof.
  assert (∀ literal, parse_literal corpus literal = inl e →
            e ≠ EmptyQuery ∧ ∀ se, e ≠ SplitError se) as Hlit.
  { intros literal.
    assert (∀ pos op, process_literal corpus literal pos op = inl e →
              e ≠ EmptyQuery ∧ ∀ se, e ≠ SplitError se) as Hp.
    { intros pos op. unfold process_literal, trim_and_validate_lit. cbv zeta.
      destruct (_ && _); [destruct (string2index corpus !! _)|];
        intros [= <-]; (split; [discriminate|intros se; discriminate]). }
    unfold parse_literal. cbv zeta.
    destruct (find "!=" literal) as [pos|].
    - destruct (process_literal corpus literal pos "!=") as [e'|lit] eqn:H.
      + intros [= ->]. by eapply Hp.
      + destruct (_ && _); intros [= <-];
          (split; [discriminate|intros se; discriminate]).
    - destruct (find "=" literal) as [pos|].
      + destruct (process_literal corpus literal pos "=") as [e'|lit] eqn:H.
        * intros [= ->]. by eapply Hp.
        * destruct (_ && _); intros [= <-];
            (split; [discriminate|intros se; discriminate]).
      + intros [= <-]. split; [discriminate|intros se; discriminate]. }
  assert (∀ fuel stream acc, parse_clause_loop fuel corpus stream acc = inl e →
            e ≠ EmptyQuery ∧ ∀ se, e ≠ SplitError se) as Hloop.
  { induction fuel as [|fuel IH]; intros stream acc; simpl; [discriminate|].
    destruct (getline " " stream) as [[literal unread]|]; [|discriminate].
    destruct (parse_literal corpus literal) as [e'|lit] eqn:Hl; [|apply IH].
    intros [= ->]. by eapply Hlit. }
  induction clauses as [|c clauses IH]; simpl; [discriminate|].
  destruct (parse_clause c corpus) as [e'|cl] eqn:Hc.
  - intros [= ->]. by eapply Hloop.
  - destruct (parse_clauses clauses corpus) as [e'|q]; [|discriminate].
    intros [= ->]. by apply IH.
Qed.

(** X19.  [parse_query] passes on the exception of the splitter, and it rejects
    the text as an empty query exactly when the splitter finds no clause in
    it, as in a text without brackets. *)
Theorem parse_query_errors (text : string) (corpus : Corpus) :
  (∀ e, split_clauses text = inl e → parse_query text corpus = inl (SplitError e)) ∧
  (parse_query text corpus = inl EmptyQuery ↔ split_clauses text = inr []) ∧
  (bracket_free text = true → parse_query text corpus = inl EmptyQuery).
Proof.
  assert (split_clauses text = inr [] → parse_query text corpus = inl EmptyQuery)
    as Hempty by (unfold parse_query; by intros ->).
  split; [|split].
  - unfold parse_query. by intros e ->.
  - split; [|done]. unfold parse_query.
    destruct (split_clauses text) as [e|clauses]; [discriminate|].
    destruct (parse_clauses clauses corpus) as [e|q] eqn:Hq.
    + intros [= ->]. by destruct (parse_clauses_error _ _ _ Hq).
    + apply parse_clauses_ok in Hq as [_ Hlen].
      destruct q; [|discriminate]. destruct clauses; [done|discriminate].
  - intros Hfree. apply Hempty. unfold split_clauses.
    by rewrite (split_loop_outside text split_init Hfree eq_refl).
Qed.

Lemma parse_query_errors_witness :
  bracket_free "the cat" = true ∧
  parse_query "the cat" empty_corpus = inl EmptyQuery.
Proof.
  split; [reflexivity|].
  exact (proj2 (proj2 (parse_query_errors "the cat" empty_corpus)) eq_refl).
Defined.

(** *** Strings *)

Lemma prefix_empty (s : string) : String.prefix "" s = true.
Proof. by destruct s. Qed.

Lemma length_append (a b : string) :
  String.length (a +:+ b) = (String.length a + String.length b)%nat.
Proof. induction a as [|x a IH]; simpl; [done|]. by rewrite IH. Qed.

Lemma substring_all (r : string) : String.substring 0 (String.length r) r = r.
Proof. induction r as [|x r IH]; simpl; [done|]. by rewrite IH. Qed.

Lemma substring_prefix (a r : string) :
  String.substring 0 (String.length a) (a +:+ r) = a.
Proof.
  induction a as [|x a IH]; simpl; [by destruct r|]. by rewrite IH.
Qed.

Lemma substring_skip (a r : string) (n m : nat) :
  String.substring (String.length a + n) m (a +:+ r) = String.substring n m r.
Proof. induction a as [|x a IH]; simpl; [done|]. apply IH. Qed.

Lemma get_append_end (a r : string) (c : ascii) :
  String.get (String.length a) (a +:+ String c r) = Some c.
Proof. induction a as [|x a IH]; simpl; [done|]. apply IH. Qed.

Lemma find_char_cons (c x : ascii) (r : string) :
  find (String c "") (String x r) =
  if Ascii.eqb x c then Some O else option_map S (find (String c "") r).
Proof.
  cbn [find String.prefix]. destruct (ascii_dec c x) as [->|Hne].
  - by rewrite prefix_empty, Ascii.eqb_refl.
  - destruct (Ascii.eqb_spec x c); [congruence|done].
Qed.

Lemma append_cons (x : ascii) (a b : string) :
  String x a +:+ b = String x (a +:+ b).
Proof. reflexivity. Qed.

Lemma append_nil (b : string) : "" +:+ b = b.
Proof. reflexivity. Qed.

Lemma find_unfold (pat s : string) :
  find pat s =
  if String.prefix pat s then Some O
  else match s with
       | EmptyString => None
       | String _ rest => option_map S (find pat rest)
       end.
Proof. by destruct s. Qed.

Lemma find_char_none_app (c : ascii) (a b : string) :
  find (String c "") a = None → find (String c "") b = None →
  find (String c "") (a +:+ b) = None.
Proof.
  induction a as [|x a IH]; [done|]. rewrite append_cons.
  rewrite !find_char_cons. destruct (Ascii.eqb x c); [discriminate|].
  destruct (find (String c "") a); [discriminate|]. intros _ Hb.
  by rewrite IH.
Qed.

Lemma find_char_hit (c : ascii) (a r : string) :
  find (String c "") a = None →
  find (String c "") (a +:+ String c r) = Some (String.length a).
Proof.
  induction a as [|x a IH].
  - intros _. rewrite append_nil. by rewrite find_char_cons, Ascii.eqb_refl.
  - rewrite append_cons, !find_char_cons. destruct (Ascii.eqb x c); [discriminate|].
    destruct (find (String c "") a); [discriminate|]. intros _.
    by rewrite IH.
Qed.

(** [getline] takes the whole stream when the delimiter does not occur. *)
Lemma getline_until_no_delim (c : ascii) (t : string) :
  find (String c "") t = None → getline_until c t = (t, EmptyString).
Proof.
  induction t as [|x t IH]; [done|]. rewrite find_char_cons. simpl.
  destruct (Ascii.eqb x c); [discriminate|].
  destruct (find (String c "") t); [discriminate|]. intros _. by rewrite IH.
Qed.

(** The operator "!=" in front of a text without the character '!'. *)
Lemma find_ne_cons (x : ascii) (r : string) :
  x ≠ "!"%char →
  find "!=" (String x r) = option_map S (find "!=" r).
Proof.
  intros Hx. cbn [find String.prefix].
  destruct (ascii_dec "!" x) as [<-|_]; [done|done].
Qed.

Lemma find_ne_hit (a r : string) :
  find "!" a = None → find "!=" (a +:+ "!=" +:+ r) = Some (String.length a).
Proof.
  induction a as [|x a IH].
  - intros _. rewrite append_nil, find_unfold. simpl. by rewrite prefix_empty.
  - rewrite append_cons, find_char_cons.
    destruct (Ascii.eqb_spec x "!") as [|Hx]; [discriminate|].
    destruct (find "!" a); [discriminate|]. intros _.
    rewrite (find_ne_cons x _ Hx). by rewrite IH.
Qed.

Lemma prefix_cons (a b : ascii) (s1 s2 : string) :
  String.prefix (String a s1) (String b s2) =
  if ascii_dec a b then String.prefix s1 s2 else false.
Proof. reflexivity. Qed.

Lemma prefix_ne_append (s t : string) (c : ascii) :
  c ≠ "="%char → c ≠ "!"%char →
  String.prefix "!=" (s +:+ String c t) = String.prefix "!=" s.
Proof.
  intros Hc Hc'. destruct s as [|x [|y s]];
    rewrite ?append_cons, ?append_nil, ?prefix_cons.
  - destruct (ascii_dec "!" c); [congruence|done].
  - destruct (ascii_dec "!" x); [|done].
    destruct (ascii_dec "=" c); [congruence|done].
  - destruct (ascii_dec "!" x); [|done].
    destruct (ascii_dec "=" y); [|done]. by rewrite !prefix_empty.
Qed.

Lemma find_ne_append (s t : string) (c : ascii) :
  c ≠ "="%char → c ≠ "!"%char → find "!=" t = None → find "!=" s = None →
  find "!=" (s +:+ String c t) = None.
Proof.
  intros Hc Hc' Ht. induction s as [|x s IH].
  - intros _. rewrite append_nil, (find_ne_cons c t Hc'). by rewrite Ht.
  - rewrite (find_unfold "!=" (String x s +:+ String c t)),
      (find_unfold "!=" (String x s)).
    rewrite (prefix_ne_append (String x s) t c Hc Hc').
    destruct (String.prefix "!=" (String x s)); [discriminate|].
    rewrite append_cons.
    destruct (find "!=" s); [discriminate|]. intros _. by rewrite IH.
Qed.

(** *** A literal in its written form *)

Lemma quote_not_operator : quote ≠ "="%char ∧ quote ≠ "!"%char ∧ quote ≠ " "%char.
Proof. repeat split; discriminate. Qed.

Lemma trim_canonical (s : string) :
  s ≠ EmptyString →
  trim_and_validate_lit (String quote (s +:+ String quote "")) = inr s.
Proof.
  intros Hs. unfold trim_and_validate_lit.
  assert (String.length (String quote (s +:+ String quote ""))
          = S (S (String.length s))) as ->.
  { cbn [String.length]. rewrite length_append. simpl. lia. }
  replace (S (S (String.length s)) - 1)%nat with (S (String.length s)) by lia.
  replace (S (S (String.length s)) - 2)%nat with (String.length s) by lia.
  cbn [String.get String.substring]. rewrite get_append_end, substring_prefix.
  rewrite !bool_decide_true by done.
  destruct s as [|x s]; [done|]. reflexivity.
Qed.

Lemma process_literal_canonical corpus (a op s : string) (id : Z) :
  string2index corpus !! s = Some id → s ≠ EmptyString →
  process_literal corpus (a +:+ op +:+ String quote (s +:+ String quote ""))
    (String.length a) op
  = inr (mkLiteral a id (String.eqb op "=")).
Proof.
  intros Hid Hs. unfold process_literal. cbv zeta.
  rewrite substring_prefix, substring_skip.
  rewrite <- (Nat.add_0_r (String.length op)) at 1. rewrite substring_skip.
  rewrite !length_append.
  replace (String.length a + (String.length op +
             String.length (String quote (s +:+ String quote ""))) -
           (String.length a + String.length op))%nat
    with (String.length (String quote (s +:+ String quote ""))) by lia.
  rewrite substring_all, (trim_canonical s Hs), Hid. done.
Qed.

Lemma find_ne_none (a s : string) :
  find "!" a = None → find "!=" s = None →
  find "!=" (a +:+ "=" +:+ String quote (s +:+ String quote "")) = None.
Proof.
  destruct quote_not_operator as (Hq1 & Hq2 & _). intros Ha Hs.
  induction a as [|x a IH].
  - rewrite append_nil. change ("=" +:+ ?r) with (String "=" r).
    rewrite find_ne_cons by discriminate. rewrite (find_ne_cons quote _ Hq2).
    by rewrite (find_ne_append s "" quote Hq1 Hq2 eq_refl Hs).
  - rewrite find_char_cons in Ha.
    destruct (Ascii.eqb_spec x "!") as [|Hx]; [discriminate|].
    destruct (find "!" a); [discriminate|].
    rewrite append_cons, (find_ne_cons x _ Hx). by rewrite IH.
Qed.

Lemma known_attribute_cases (attr : string) :
  known_attribute attr = true →
  attr = "word" ∨ attr = "c5" ∨ attr = "lemma" ∨ attr = "pos".
Proof.
  unfold known_attribute. rewrite !orb_true_iff, !String.eqb_eq. tauto.
Qed.

Lemma known_attribute_chars (attr : string) :
  known_attribute attr = true →
  find " " attr = None ∧ find "!" attr = None ∧ find "=" attr = None.
Proof.
  intros H. apply known_attribute_cases in H.
  destruct H as [H|[H|[H|H]]]; subst attr; repeat split; reflexivity.
Qed.

Lemma parse_literal_canonical corpus (attr s : string) (id : Z) (eq : bool) :
  known_attribute attr = true →
  string2index corpus !! s = Some id → s ≠ EmptyString →
  (eq = true → find "!=" s = None) →
  parse_literal corpus
    (attr +:+ (if eq then "=" else "!=") +:+ String quote (s +:+ String quote ""))
  = inr (mkLiteral attr id eq).
Proof.
  intros Hk Hid Hs Hne.
  destruct (known_attribute_chars attr Hk) as (_ & Hbang & Heq).
  unfold parse_literal. cbv zeta. destruct eq.
  - rewrite (find_ne_none attr s Hbang (Hne eq_refl)).
    assert (find "=" (attr +:+ "=" +:+ String quote (s +:+ String quote ""))
            = Some (String.length attr)) as ->
      by exact (find_char_hit "=" attr _ Heq).
    rewrite (process_literal_canonical corpus attr "=" s id Hid Hs).
    cbn [attribute]. unfold known_attribute in Hk.
    destruct (String.eqb attr "word"), (String.eqb attr "c5"),
      (String.eqb attr "lemma"), (String.eqb attr "pos"); done.
  - rewrite (find_ne_hit attr _ Hbang).
    rewrite (process_literal_canonical corpus attr "!=" s id Hid Hs).
    cbn [attribute]. unfold known_attribute in Hk.
    destruct (String.eqb attr "word"), (String.eqb attr "c5"),
      (String.eqb attr "lemma"), (String.eqb attr "pos"); done.
Qed.

Import Written.

Lemma literal_text_shape corpus (l : written_literal) :
  writable corpus l →
  find " " (literal_text l) = None ∧ (0 < String.length (literal_text l))%nat.
Proof.
  intros (Hk & _ & _ & Hsp & _). unfold literal_text. split.
  - destruct quote_not_operator as (_ & _ & Hq).
    destruct (known_attribute_chars _ Hk) as (Ha & _ & _).
    apply find_char_none_app; [done|].
    assert (find " " (String quote (w_value l +:+ String quote "")) = None) as Hv.
    { rewrite find_char_cons. destruct (Ascii.eqb_spec quote " ") as [|_]; [done|].
      by rewrite (find_char_none_app " " (w_value l) (String quote "") Hsp eq_refl). }
    destruct (w_equality l).
    + change (find " " (String "=" (String quote (w_value l +:+ String quote "")))
              = None).
      rewrite (find_char_cons " " "="). change (Ascii.eqb "=" " ") with false.
      cbv iota. by rewrite Hv.
    + change (find " " (String "!" (String "="
                (String quote (w_value l +:+ String quote "")))) = None).
      rewrite (find_char_cons " " "!"), (find_char_cons " " "=").
      change (Ascii.eqb "=" " ") with false. change (Ascii.eqb "!" " ") with false.
      cbv iota. by rewrite Hv.
  - rewrite !length_append. destruct (w_equality l); simpl; lia.
Qed.

Lemma getline_whole (t : string) :
  find " " t = None → (0 < String.length t)%nat →
  getline " " t = Some (t, EmptyString).
Proof.
  intros Hsp Hlen. unfold getline. destruct t as [|x t]; [simpl in Hlen; lia|].
  by rewrite (getline_until_no_delim " " _ Hsp).
Qed.

Lemma getline_piece (t r : string) :
  find " " t = None →
  getline " " (t +:+ " " +:+ r) = Some (t, r).
Proof.
  intros Hsp. unfold getline.
  assert (getline_until " " (t +:+ " " +:+ r) = (t, r)) as ->.
  { induction t as [|x t IH]; [done|]. rewrite find_char_cons in Hsp.
    rewrite append_cons. cbn [getline_until].
    destruct (Ascii.eqb x " "); [discriminate|].
    destruct (find " " t); [discriminate|]. by rewrite IH. }
  destruct t; reflexivity.
Qed.

Lemma parse_clause_loop_written corpus (ls : list written_literal) fuel acc :
  Forall (writable corpus) ls →
  (String.length (clause_text (literal_text <$> ls)) < fuel)%nat →
  parse_clause_loop fuel corpus (clause_text (literal_text <$> ls)) acc
  = inr (acc ++ (literal_of <$> ls)).
Proof.
  revert fuel acc. induction ls as [|l ls IH]; intros fuel acc Hall Hfuel.
  - destruct fuel; [simpl in Hfuel; lia|]. simpl. by rewrite app_nil_r.
  - apply Forall_cons in Hall as [Hl Hall].
    destruct (literal_text_shape corpus l Hl) as [Hsp Hlen].
    destruct Hl as (Hk & Hid & Hs & _ & Hne).
    pose proof (parse_literal_canonical corpus _ _ _ (w_equality l) Hk Hid Hs Hne)
      as Hparse. fold (literal_text l) in Hparse.
    destruct fuel as [|fuel]; [lia|]. destruct ls as [|l2 ls].
    + cbn [fmap list_fmap clause_text parse_clause_loop] in *.
      rewrite (getline_whole _ Hsp Hlen), Hparse. by destruct fuel.
    + change (clause_text (literal_text <$> l :: l2 :: ls))
        with (literal_text l +:+ " " +:+ clause_text (literal_text <$> l2 :: ls))
        in *.
      cbn [parse_clause_loop]. rewrite (getline_piece _ _ Hsp), Hparse.
      rewrite IH; [by rewrite <- app_assoc|done|].
      rewrite !length_append in Hfuel.
      change (String.length " ") with 1%nat in Hfuel. lia.
Qed.

Lemma parse_clause_text (corpus : Corpus) (ls : list written_literal) :
  Forall (writable corpus) ls →
  parse_clause (clause_text (literal_text <$> ls)) corpus = inr (literal_of <$> ls).
Proof.
  intros Hall. unfold parse_clause.
  by rewrite (parse_clause_loop_written corpus ls _ [] Hall) by lia.
Qed.

(** X20.  A clause written as literals [attr="value"] or [attr!="value"], one
    space between two of them, is read back by [parse_clause] as the list of
    these literals, provided that every attribute is one of the four names
    and every value is a string of the dictionary that is not empty, holds
    no space and, in an equality literal, no operator "!="; the empty text
    is the empty clause. *)
Theorem parse_clause_written (corpus : Corpus) (ls : list written_literal) :
  Forall (writable corpus) ls →
  parse_clause (clause_text (literal_text <$> ls)) corpus = inr (literal_of <$> ls).
Proof.
  exact (parse_clause_text corpus ls).
Qed.

Lemma parse_clause_written_witness :
  let ls := [WrittenLiteral "c5" true "NN1" 4; WrittenLiteral "pos" false "DET" 2] in
  Forall (writable Fixtures.four_tokens) ls ∧
  parse_clause (clause_text (literal_text <$> ls)) Fixtures.four_tokens
    = inr (literal_of <$> ls).
Proof.
  intros ls.
  assert (Forall (writable Fixtures.four_tokens) ls) as H.
  { repeat constructor; try discriminate; vm_compute; reflexivity. }
  split; [exact H|]. exact (parse_clause_written Fixtures.four_tokens ls H).
Defined.

(** *** A query in its written form *)

Lemma append_assoc (a b c : string) : (a +:+ b) +:+ c = a +:+ (b +:+ c).
Proof.
  induction a as [|x a IH]; [done|]. rewrite !append_cons. by rewrite IH.
Qed.

Lemma append_empty_r (a : string) : a +:+ "" = a.
Proof.
  induction a as [|x a IH]; [done|]. rewrite append_cons. by rewrite IH.
Qed.

Lemma bracket_free_append (a b : string) :
  bracket_free (a +:+ b) = bracket_free a && bracket_free b.
Proof.
  induction a as [|x a IH]; simpl; [done|]. rewrite IH.
  by rewrite !andb_assoc.
Qed.

Lemma split_loop_inside (c : string) (st : split_state) :
  bracket_free c = true → in_clause st = true →
  split_loop c st =
  inr {| clauses := clauses st; sub_clause := sub_clause st +:+ c; in_clause := true |}.
Proof.
  revert st. induction c as [|ch c IH]; intros st Hfree Hin.
  - destruct st as [cl sub inc]; cbn [split_loop clauses sub_clause in_clause] in *.
    subst inc. by rewrite append_empty_r.
  - simpl in Hfree. apply andb_prop in Hfree as [[H1 H2]%andb_prop Hfree].
    apply negb_true_iff in H1, H2.
    cbn [split_loop]. unfold split_step. rewrite H1, H2, Hin.
    rewrite IH by done. cbn [clauses sub_clause]. by rewrite append_assoc.
Qed.

Lemma split_loop_clause (c : string) (st : split_state) :
  bracket_free c = true → in_clause st = false →
  split_loop ("[" +:+ c +:+ "]") st =
  inr {| clauses := clauses st ++ [c]; sub_clause := c; in_clause := false |}.
Proof.
  intros Hfree Hout.
  rewrite (split_loop_app "[" (c +:+ "]") st).
  assert (split_loop "[" st
          = inr {| clauses := clauses st; sub_clause := ""; in_clause := true |})
    as ->.
  { cbn [split_loop]. unfold split_step. by rewrite Hout. }
  rewrite (split_loop_app c "]"), split_loop_inside by done.
  reflexivity.
Qed.

Lemma query_text_cons (c c2 : string) (cs : list string) :
  query_text (c :: c2 :: cs)
  = ("[" +:+ c +:+ "]") +:+ " " +:+ query_text (c2 :: cs).
Proof.
  change (query_text (c :: c2 :: cs))
    with ("[" +:+ c +:+ "]" +:+ " " +:+ query_text (c2 :: cs)).
  by rewrite !append_assoc.
Qed.

Lemma split_loop_query (cs : list string) (st : split_state) :
  Forall (λ c, bracket_free c = true) cs → in_clause st = false →
  ∃ st', split_loop (query_text cs) st = inr st' ∧
         clauses st' = clauses st ++ cs ∧ in_clause st' = false.
Proof.
  revert st. induction cs as [|c cs IH]; intros st Hall Hout.
  - exists st. simpl. by rewrite app_nil_r.
  - apply Forall_cons in Hall as [Hc Hall]. destruct cs as [|c2 cs].
    + eexists. cbn [query_text]. rewrite (split_loop_clause c st Hc Hout).
      split; [done|]. by split.
    + rewrite query_text_cons.
      rewrite split_loop_app, (split_loop_clause c st Hc Hout).
      rewrite (split_loop_app " " (query_text (c2 :: cs))).
      rewrite (split_loop_outside " "
                 {| clauses := clauses st ++ [c]; sub_clause := c;
                    in_clause := false |} eq_refl eq_refl).
      destruct (IH {| clauses := clauses st ++ [c]; sub_clause := c;
                      in_clause := false |} Hall eq_refl)
        as (st' & Hst' & Hcl & Hin).
      exists st'. split; [done|]. split; [|done].
      rewrite Hcl. cbn [clauses]. by rewrite <- app_assoc.
Qed.

Lemma split_clauses_query (cs : list string) :
  Forall (λ c, bracket_free c = true) cs → split_clauses (query_text cs) = inr cs.
Proof.
  intros Hall. unfold split_clauses.
  destruct (split_loop_query cs split_init Hall eq_refl) as (st' & -> & Hcl & ->).
  by rewrite Hcl.
Qed.

Lemma literal_text_bracket_free corpus (l : written_literal) :
  writable_in_query corpus l → bracket_free (literal_text l) = true.
Proof.
  intros [(Hk & _) Hv]. unfold literal_text.
  rewrite !bracket_free_append. cbn [bracket_free]. rewrite bracket_free_append, Hv.
  apply known_attribute_cases in Hk.
  destruct Hk as [H|[H|[H|H]]]; rewrite H; by destruct (w_equality l).
Qed.

Lemma clause_text_bracket_free corpus (ls : list written_literal) :
  Forall (writable_in_query corpus) ls →
  bracket_free (clause_text (literal_text <$> ls)) = true.
Proof.
  induction 1 as [|l ls Hl Hall IH]; [done|].
  destruct ls as [|l2 ls]; [by eapply literal_text_bracket_free|].
  change (clause_text (literal_text <$> l :: l2 :: ls))
    with (literal_text l +:+ " " +:+ clause_text (literal_text <$> l2 :: ls)).
  rewrite !bracket_free_append, IH, (literal_text_bracket_free corpus l Hl). done.
Qed.

Lemma parse_clauses_written corpus (cs : list (list written_literal)) :
  Forall (Forall (writable_in_query corpus)) cs →
  parse_clauses (clause_of <$> cs) corpus = inr (literals_of <$> cs).
Proof.
  induction 1 as [|ls cs Hls Hall IH]; [done|].
  rewrite !fmap_cons. cbn [parse_clauses]. unfold clause_of at 1.
  rewrite parse_clause_text.
  - by rewrite IH.
  - eapply Forall_impl; [exact Hls|]. by intros l [? _].
Qed.

(** X21.  A query written clause by clause in brackets, with literals in their
    written form, is read back by [parse_query] as the query of these
    clauses, provided that it has at least one clause, that every attribute
    is one of the four names and that every value is a string of the
    dictionary that is not empty and holds no space, no bracket and, in an
    equality literal, no operator "!="; an empty pair of brackets is read as
    the empty clause. *)
Theorem parse_query_written (corpus : Corpus) (cs : list (list written_literal)) :
  cs ≠ [] → Forall (Forall (writable_in_query corpus)) cs →
  parse_query (written_query cs) corpus = inr (literals_of <$> cs).
Proof.
  intros Hne Hall. unfold parse_query, written_query.
  rewrite split_clauses_query.
  - rewrite (parse_clauses_written corpus cs Hall). by destruct cs.
  - apply Forall_fmap. eapply Forall_impl; [exact Hall|].
    intros ls Hls. by eapply clause_text_bracket_free.
Qed.

Lemma parse_query_written_witness :
  let cs := [[WrittenLiteral "c5" true "NN1" 4]; []] in
  cs ≠ [] ∧ Forall (Forall (writable_in_query Fixtures.four_tokens)) cs ∧
  parse_query (written_query cs) Fixtures.four_tokens = inr (literals_of <$> cs).
Proof.
  intros cs.
  assert (cs ≠ []) as Hne by discriminate.
  assert (Forall (Forall (writable_in_query Fixtures.four_tokens)) cs) as H.
  { repeat constructor; try discriminate; vm_compute; reflexivity. }
  split; [exact Hne|]. split; [exact H|].
  exact (parse_query_written Fixtures.four_tokens cs Hne H).
Defined.

End QueryParserLaws.

(** ** Ingestion *)

Module IngestionSpec.
Import Dictionary DictionarySpec Indexing Ingestion Invariants IngestionInvariants.

Lemma insert_keeps_tokens c s :
  tokens (insert_and_get_index c s).1 = tokens c ∧
  sentences (insert_and_get_index c s).1 = sentences c.
Proof.
  unfold insert_and_get_index. by destruct (string2index c !! s).
Qed.

(** An entry of the dictionary is never changed by a later call. *)
Lemma insert_lookup_mono c s s' i :
  string2index c !! s = Some i →
  string2index (insert_and_get_index c s').1 !! s = Some i.
Proof.
  intros H. unfold insert_and_get_index.
  destruct (string2index c !! s') eqn:E; simpl; [done|].
  rewrite lookup_insert_ne; [done|]. intros ->. congruence.
Qed.

Lemma row_ids_mono c s t r :
  row_ids c t r → row_ids (insert_and_get_index c s).1 t r.
Proof.
  destruct r as [[[w c5_] l] p]. unfold row_ids.
  intros (? & ? & ? & ?). auto using insert_lookup_mono.
Qed.

Lemma load_row_inv st done r :
  load_inv st done → load_inv (load_row st r) (done ++ [r]).
Proof.
  intros (Hd & Hs & Hb & He & Hf & Hr). unfold load_inv, token_rows.
  rewrite omap_app. destruct r as [[[[w c5_] l] p]|]; simpl.
  - set (c0 := corpus st) in *.
    set (c1 := (insert_and_get_index c0 w).1).
    set (c2 := (insert_and_get_index c1 c5_).1).
    set (c3 := (insert_and_get_index c2 l).1).
    set (c4 := (insert_and_get_index c3 p).1).
    rewrite (surjective_pairing (insert_and_get_index c0 w)). fold c1.
    rewrite (surjective_pairing (insert_and_get_index c1 c5_)). fold c2.
    rewrite (surjective_pairing (insert_and_get_index c2 l)). fold c3.
    rewrite (surjective_pairing (insert_and_get_index c3 p)). fold c4.
    cbn [corpus in_sentence].
    assert (tokens c4 = tokens c0 ∧ sentences c4 = sentences c0) as [Ht Hse].
    { assert (∀ c s, tokens (insert_and_get_index c s).1 = tokens c) as HT
        by (intros; apply insert_keeps_tokens).
      assert (∀ c s, sentences (insert_and_get_index c s).1 = sentences c) as HS
        by (intros; apply insert_keeps_tokens).
      unfold c4, c3, c2, c1. by rewrite !HT, !HS. }
    assert (dict_inv c4) as Hd4 by (unfold c4, c3, c2, c1; auto using insert_inv).
    unfold push_token; cbn [tokens sentences index2string string2index].
    rewrite Ht, Hse, length_app. cbn [List.length].
    split; [exact Hd4|].
    split; [|split; [|split; [|split]]].
    + destruct (in_sentence st); simpl; [done|].
      apply StronglySorted_app_2; [|done|repeat constructor].
      intros x1 x2 Hx1 ->%list_elem_of_singleton.
      rewrite Forall_forall in Hb. apply Hb in Hx1. lia.
    + assert (Forall (λ s, 0 ≤ s < Z.of_nat (List.length (tokens c0) + 1))
                (sentences c0)) as Hb'.
      { eapply Forall_impl; [exact Hb|]. intros x Hx. simpl in *. lia. }
      destruct (in_sentence st); simpl; [done|].
      apply Forall_app. split; [done|]. repeat constructor; lia.
    + intros E. by apply app_eq_nil in E as [_ ?].
    + intros _. destruct (tokens c0) as [|t0 ts] eqn:Et.
      * rewrite (He eq_refl). cbn [negb].
        destruct (sentences c0) as [|x xs]; [done|].
        apply Forall_cons in Hb as [Hx _]. simpl in Hx. lia.
      * specialize (Hf ltac:(done)). destruct (in_sentence st); simpl; [done|].
        by apply lookup_app_l_Some.
    + apply Forall2_app.
      * eapply Forall2_impl; [exact Hr|]. intros t r Htr.
        destruct r as [[[w' c5'] l'] p']. unfold row_ids in *.
        cbn [string2index].
        assert (row_ids c4 t (w', c5', l', p')) as H4
          by (unfold c4, c3, c2, c1; auto using row_ids_mono).
        exact H4.
      * constructor; [|constructor]. unfold row_ids.
        cbn [word c5 lemma pos string2index].
        pose proof (insert_lookup c0 w) as H1. fold c1 in H1.
        pose proof (insert_lookup c1 c5_) as H2. fold c2 in H2.
        pose proof (insert_lookup c2 l) as H3. fold c3 in H3.
        pose proof (insert_lookup c3 p) as H4. fold c4 in H4.
        split; [|split; [|split]].
        -- exact (insert_lookup_mono _ _ _ _
                    (insert_lookup_mono _ _ _ _ (insert_lookup_mono _ _ _ _ H1))).
        -- exact (insert_lookup_mono _ _ _ _ (insert_lookup_mono _ _ _ _ H2)).
        -- exact (insert_lookup_mono _ _ _ _ H3).
        -- exact H4.
  - rewrite app_nil_r. cbn [corpus in_sentence].
    split; [exact Hd|]. split; [exact Hs|]. split; [exact Hb|].
    split; [done|]. split; [exact Hf|exact Hr].
Qed.

Lemma load_inv_start : load_inv (LoadState empty_corpus false) [].
Proof.
  unfold load_inv. cbn [corpus in_sentence].
  split; [exact dict_inv_empty|]. unfold empty_corpus, token_rows; simpl.
  repeat split; try constructor; done.
Qed.

Lemma load_rows_inv rows : ∀ st done,
  load_inv st done → load_inv (foldl load_row st rows) (done ++ rows).
Proof.
  induction rows as [|r rows IH]; intros st done H; simpl.
  - by rewrite app_nil_r.
  - rewrite cons_middle, app_assoc. by apply IH, load_row_inv.
Qed.

Lemma load_rows_final rows :
  let c := load_rows rows in
  dict_inv c ∧
  StronglySorted Z.lt (sentences c) ∧
  Forall (λ s, 0 ≤ s < Z.of_nat (List.length (tokens c))) (sentences c) ∧
  (tokens c ≠ [] → sentences c !! 0%nat = Some 0) ∧
  Forall2 (row_ids c) (tokens c) (token_rows rows).
Proof.
  pose proof (load_rows_inv rows _ [] load_inv_start) as H.
  rewrite app_nil_l in H. destruct H as (Hd & Hs & Hb & _ & Hf & Hr).
  unfold load_rows, build_indices. cbn zeta.
  split; [exact Hd|]. split; [exact Hs|]. split; [exact Hb|].
  split; [exact Hf|exact Hr].
Qed.

(** X22.  Whatever the rows of the file, the corpus that the
    loader returns has a dictionary whose strings are distinct and numbered
    by position; its sentence starts are strictly ascending token positions,
    the first of them 0 when there is a token; and it has one token per token
    line, in file order, whose four identifiers are the dictionary entries
    of the four strings of the line. *)
Theorem load_rows_wellformed rows :
  let c := load_rows rows in
  dict_inv c ∧
  StronglySorted Z.lt (sentences c) ∧
  Forall (λ s, 0 ≤ s < Z.of_nat (List.length (tokens c))) (sentences c) ∧
  (tokens c ≠ [] → sentences c !! 0%nat = Some 0) ∧
  Forall2 (row_ids c) (tokens c) (token_rows rows).
Proof.
  exact (load_rows_final rows).
Qed.

(** The identifier found for a string in a dictionary of at most 2^32
    strings gives the string back. *)
Lemma reveal_lookup c s i :
  dict_inv c →
  Z.of_nat (List.length (index2string c)) ≤ 2 ^ 32 →
  string2index c !! s = Some i → reveal c i = Some s.
Proof.
  intros [_ H] Hlen Hs. apply H in Hs as (n & Hn & ->).
  pose proof (lookup_lt_Some _ _ _ Hn) as Hlt.
  unfold reveal, to_uint32. rewrite Z.mod_small by lia.
  by rewrite Nat2Z.id.
Qed.

(** X23.  When the file has at most 2^32
    distinct strings, every token of the loaded corpus decodes, through
    [index2string], to the four strings of its line. *)
Theorem load_rows_decode rows :
  Z.of_nat (List.length (index2string (load_rows rows))) ≤ 2 ^ 32 →
  Forall2 (λ t r, decode_token (load_rows rows) t
                  = (Some r.1.1.1, Some r.1.1.2, Some r.1.2, Some r.2))
          (tokens (load_rows rows)) (token_rows rows).
Proof.
  intros Hlen. destruct (load_rows_final rows) as (Hd & _ & _ & _ & Hr).
  eapply Forall2_impl; [exact Hr|].
  intros t [[[w c5_] l] p] (Hw & Hc & Hl & Hp). unfold decode_token. simpl.
  by rewrite (reveal_lookup _ _ _ Hd Hlen Hw), (reveal_lookup _ _ _ Hd Hlen Hc),
    (reveal_lookup _ _ _ Hd Hlen Hl), (reveal_lookup _ _ _ Hd Hlen Hp).
Qed.

Lemma load_rows_decode_witness :
  let rows := [Some ("the", "AT0", "the", "ART"); None;
               Some ("dog", "NN1", "dog", "SUBST")] in
  Z.of_nat (List.length (index2string (load_rows rows))) ≤ 2 ^ 32 ∧
  Forall2 (λ t r, decode_token (load_rows rows) t
                  = (Some r.1.1.1, Some r.1.1.2, Some r.1.2, Some r.2))
          (tokens (load_rows rows)) (token_rows rows).
Proof.
  intros rows.
  assert (Z.of_nat (List.length (index2string (load_rows rows))) ≤ 2 ^ 32) as H
    by (apply Z.leb_le; vm_compute; reflexivity).
  split; [exact H|]. exact (load_rows_decode rows H).
Defined.

End IngestionSpec.
